(** * fuzzy-search: token matcher, wildcard matcher, scorer, search

    A shallow embedding of [src/main/match.ts] and of the module of
    [fuzzySearch], and the properties of their specification.

    - JavaScript strings are sequences of UTF-16 code units: [jsstring].
      Lower-casing is Unicode's for the code units up to U+017F.
    - JavaScript numbers are IEEE-754 binary64 values: [number], with the
      operations of the Standard Library's [SpecFloat] at precision 53.
    - Indices into strings (cursor, lastIndex, matched positions) are
      natural numbers; they are converted to [number] where the scorer
      does arithmetic on them. *)

From Stdlib Require Import List Bool Arith ZArith NArith Lia.
From Stdlib Require Import Ascii.
From Stdlib Require String.
Import String.StringSyntax.
From Stdlib Require Import Sorting.Sorted Sorting.Permutation.
From Stdlib Require Import Floats.SpecFloat.
Import ListNotations.

Set Implicit Arguments.

(* ================================================================= *)
(** ** Strings *)

Module JsString.

(** A UTF-16 code unit. *)
Definition codeUnit := N.
Bind Scope N_scope with codeUnit.

Definition jsstring := list codeUnit.

(** A string literal, for code units below 256. *)
Definition js (s : String.string) : jsstring :=
  map Ascii.N_of_ascii (String.list_ascii_of_string s).

Arguments js s%_string_scope.

Definition inRange (lo hi c : codeUnit) : bool :=
  (N.leb lo c && N.leb c hi)%bool.

Arguments inRange (lo hi c)%_N_scope.

(** [String.prototype.toLowerCase] on one code unit.  The table is
    Unicode's default lower-casing for U+0000..U+017F (Basic Latin,
    Latin-1 Supplement, Latin Extended-A); the only entry of that range
    that does not yield a single code unit is U+0130, which lower-cases
    to U+0069 U+0307.  Code units above U+017F are left as they are. *)
Definition lowerUnit (c : codeUnit) : jsstring :=
  (if inRange 65 90 c then [c + 32]
   else if inRange 192 214 c then [c + 32]
   else if inRange 216 222 c then [c + 32]
   else if N.eqb c 304 then [105; 775]
   else if N.eqb c 376 then [255]
   else if inRange 256 303 c || inRange 306 311 c || inRange 330 375 c
        then (if N.even c then [c + 1] else [c])
   else if inRange 313 328 c || inRange 377 382 c
        then (if N.odd c then [c + 1] else [c])
   else [c])%N.

Definition toLowerCase (s : jsstring) : jsstring := flat_map lowerUnit s.

(** The class [\s] of a regular expression: WhiteSpace and
    LineTerminator code units. *)
Definition isWhitespace (c : codeUnit) : bool :=
  (inRange 9 13 c || N.eqb c 32 || N.eqb c 160 || N.eqb c 5760
   || inRange 8192 8202 c || N.eqb c 8232 || N.eqb c 8233
   || N.eqb c 8239 || N.eqb c 8287 || N.eqb c 12288 || N.eqb c 65279)%N.

(** [s.replace(/\s+/g, '')]. *)
Definition stripWhitespace (s : jsstring) : jsstring :=
  filter (fun c => negb (isWhitespace c)) s.

(** [s.charAt(i)]: the empty string when [i] is out of range. *)
Definition charAt (s : jsstring) (i : nat) : jsstring :=
  match nth_error s i with
  | Some c => [c]
  | None => []
  end.

Fixpoint eqStr (a b : jsstring) : bool :=
  match a, b with
  | [], [] => true
  | x :: a', y :: b' => N.eqb x y && eqStr a' b'
  | _, _ => false
  end.

Fixpoint isPrefix (p s : jsstring) : bool :=
  match p, s with
  | [], _ => true
  | x :: p', y :: s' => N.eqb x y && isPrefix p' s'
  | _ :: _, [] => false
  end.

(** [indexOfFrom rest needle k]: [rest] is the part of the string that
    starts at index [k]. *)
Fixpoint indexOfFrom (rest needle : jsstring) (k : nat) : option nat :=
  if isPrefix needle rest then Some k
  else match rest with
       | [] => None
       | _ :: rest' => indexOfFrom rest' needle (S k)
       end.

(** [s.indexOf(needle, from)]; [None] stands for [-1]. *)
Definition indexOf (s needle : jsstring) (from : nat) : option nat :=
  indexOfFrom (skipn from s) needle (Nat.min from (length s)).

(** The relational comparison of two strings: lexicographic on code
    units. *)
Fixpoint compareStr (a b : jsstring) : comparison :=
  match a, b with
  | [], [] => Eq
  | [], _ :: _ => Lt
  | _ :: _, [] => Gt
  | x :: a', y :: b' =>
      match N.compare x y with
      | Eq => compareStr a' b'
      | c => c
      end
  end.

(** [a > b] on strings. *)
Definition gtStr (a b : jsstring) : bool :=
  match compareStr a b with Gt => true | _ => false end.

End JsString.
Export JsString.

(* ================================================================= *)
(** ** Numbers *)

Module JsNumber.

Definition number := spec_float.

Definition prec : Z := 53.
Definition emax : Z := 1024.

Definition ofZ (z : Z) : number := binary_normalize prec emax z 0 false.
Definition ofNat (n : nat) : number := ofZ (Z.of_nat n).

Definition zero : number := S754_zero false.
Definition NaN : number := S754_nan.
Definition Infinity : number := S754_infinity false.

Definition add : number -> number -> number := SFadd prec emax.
Definition sub : number -> number -> number := SFsub prec emax.
Definition mul : number -> number -> number := SFmul prec emax.
Definition div : number -> number -> number := SFdiv prec emax.

(** [a > b], [a < b] and [a === b] on numbers. *)
Definition gt (a b : number) : bool := SFltb b a.
Definition lt (a b : number) : bool := SFltb a b.
Definition strictEq (a b : number) : bool := SFeqb a b.

End JsNumber.
Export JsNumber.

(* ================================================================= *)
(** ** match.ts *)

Record FuzzyMatchResult := {
  score : number;
  matches : list nat
}.

Record FuzzyMatchOptions := {
  tokenScoreBias : option number
}.

(** The default value [{}] of the [options] argument. *)
Definition noOptions : FuzzyMatchOptions := {| tokenScoreBias := None |}.

(** [{ score: 0, matches: [] }] *)
Definition noMatch : FuzzyMatchResult := {| score := zero; matches := [] |}.

(** [fuzzyMatchScore] *)
Definition fuzzyMatchScore (source : jsstring) (matches : list nat) : number :=
  let l := ofNat (length source) in
  let n := ofNat (length matches) in
  let sum := fold_left (fun sum m => add sum (ofNat m)) matches zero in
  div n (sub sum (div n l)).

(** *** The token regular expression

    [/[a-z][a-z0-9]*(?=[A-Z]|\b|_)|[A-Z][a-z0-9]*/g], without the [i]
    and [u] flags: classes are ranges of code units and [\b] is decided
    by [[A-Za-z0-9_]]. *)
Module TokenRegex.

Definition isLower (c : codeUnit) : bool := inRange 97 122 c.
Definition isUpper (c : codeUnit) : bool := inRange 65 90 c.
Definition isDigit (c : codeUnit) : bool := inRange 48 57 c.
Definition isLowerOrDigit (c : codeUnit) : bool := isLower c || isDigit c.
Definition isWord (c : codeUnit) : bool :=
  isLower c || isUpper c || isDigit c || N.eqb c 95.

Definition testAt (p : codeUnit -> bool) (s : jsstring) (i : nat) : bool :=
  match nth_error s i with
  | Some c => p c
  | None => false
  end.

(** [\b] at position [i]: exactly one of the units before and after
    [i] is a word unit. *)
Definition wordBoundary (s : jsstring) (i : nat) : bool :=
  xorb (match i with 0 => false | S j => testAt isWord s j end)
       (testAt isWord s i).

(** [(?=[A-Z]|\b|_)] at position [i]. *)
Definition lookahead (s : jsstring) (i : nat) : bool :=
  testAt isUpper s i || wordBoundary s i || testAt (N.eqb 95) s i.

(** The number of units of [[a-z0-9]] from the head of a string: what a
    greedy [[a-z0-9]*] takes first. *)
Fixpoint run (rest : jsstring) : nat :=
  match rest with
  | c :: rest' => if isLowerOrDigit c then S (run rest') else 0
  | [] => 0
  end.

(** First alternative at [i], the star holding [k] units: accept if the
    lookahead holds after them, otherwise give one unit back. *)
Fixpoint backtrack (s : jsstring) (i k : nat) : option nat :=
  if lookahead s (i + 1 + k) then Some (i + 1 + k)
  else match k with
       | 0 => None
       | S k' => backtrack s i k'
       end.

(** A match that starts at [i]: the index after its last unit. *)
Definition matchAt (s : jsstring) (i : nat) : option nat :=
  match nth_error s i with
  | None => None
  | Some c =>
      let star := run (skipn (i + 1) s) in
      match (if isLower c then backtrack s i star else None) with
      | Some e => Some e
      | None => if isUpper c then Some (i + 1 + star) else None
      end
  end.

(** The leftmost match that starts at [i], [i+1], ..., [i+n]. *)
Fixpoint scan (s : jsstring) (i n : nat) : option (nat * nat) :=
  match matchAt s i with
  | Some e => Some (i, e)
  | None => match n with
            | 0 => None
            | S n' => scan s (S i) n'
            end
  end.

(** [regex.exec(source)] with [regex.lastIndex = lastIndex]: the match
    ([m.index] and the index after it) if there is one, and the new
    [lastIndex]. *)
Definition exec (s : jsstring) (lastIndex : nat) : option nat * nat :=
  if length s <? lastIndex then (None, 0)
  else match scan s lastIndex (length s - lastIndex) with
       | Some (index, e) => (Some index, e)
       | None => (None, 0)
       end.

End TokenRegex.

(** *** [fuzzyMatchByTokens] *)

Record TokenState := {
  cursor : nat;
  lastIndex : nat;
  queue : jsstring;
  matched : list nat
}.

(** The [while] loop; [None] when [fuel] iterations were not enough. *)
Fixpoint tokenLoop (source : jsstring) (fuel : nat) (st : TokenState)
  : option FuzzyMatchResult :=
  match queue st with
  | [] =>
      Some {| score := fuzzyMatchScore source (matched st);
              matches := matched st |}
  | letter :: rest =>
      if length source <=? cursor st then Some noMatch
      else match fuel with
           | 0 => None
           | S fuel' =>
               if eqStr [letter] (toLowerCase (charAt source (cursor st)))
               then tokenLoop source fuel'
                      {| cursor := cursor st + 1;
                         lastIndex := lastIndex st;
                         queue := rest;
                         matched := matched st ++ [cursor st] |}
               else
                 let '(m, lastIndex') := TokenRegex.exec source (lastIndex st) in
                 tokenLoop source fuel'
                   {| cursor := match m with
                                | None => length source
                                | Some index => index
                                end;
                      lastIndex := lastIndex';
                      queue := queue st;
                      matched := matched st |}
           end
  end.

Definition tokenStart (query : jsstring) : TokenState :=
  {| cursor := 0;
     lastIndex := 0;
     queue := stripWhitespace (toLowerCase query);
     matched := [] |}.

(** Iterations that are always enough: one per query letter, one per
    call of [exec] that finds a token, one for the call that finds
    none. *)
Definition tokenFuel (query source : jsstring) : nat :=
  length (stripWhitespace (toLowerCase query)) + length source + 1.

Definition fuzzyMatchByTokens (query source : jsstring) : FuzzyMatchResult :=
  match tokenLoop source (tokenFuel query source) (tokenStart query) with
  | Some r => r
  | None => noMatch
  end.

(** *** [fuzzyMatchByWildcard] *)

(** The [for] loop over the letters of the query; [None] when a letter
    is not found. *)
Fixpoint wildcardLoop (sourceLowercased query : jsstring)
    (fromIdx : nat) (matches : list nat) : option (list nat) :=
  match query with
  | [] => Some matches
  | c :: query' =>
      let letter := toLowerCase [c] in
      match indexOf sourceLowercased letter fromIdx with
      | None => None
      | Some idx =>
          wildcardLoop sourceLowercased query' (idx + 1) (matches ++ [idx])
      end
  end.

Definition fuzzyMatchByWildcard (query source : jsstring) : FuzzyMatchResult :=
  let query := stripWhitespace (toLowerCase query) in
  let sourceLowercased := toLowerCase source in
  match wildcardLoop sourceLowercased query 0 [] with
  | None => noMatch
  | Some matches =>
      {| score := fuzzyMatchScore source matches; matches := matches |}
  end.

(** *** [fuzzyMatch] *)

Definition fuzzyMatch (query source : jsstring) (options : FuzzyMatchOptions)
  : FuzzyMatchResult :=
  let tokenScoreBias :=
    match tokenScoreBias options with
    | Some b => b
    | None => ofNat 10
    end in
  let tokenMatch := fuzzyMatchByTokens query source in
  if gt (score tokenMatch) zero
  then {| score := mul (score tokenMatch) tokenScoreBias;
          matches := matches tokenMatch |}
  else fuzzyMatchByWildcard query source.

(* ================================================================= *)
(** ** The module of [fuzzySearch] *)

(** The fields [score], [matches], [source] and [sourceIndex] of a
    search result carry an [r]: [score] and [matches] name the fields of
    [FuzzyMatchResult]. *)
Record FuzzySearchResult := {
  rscore : number;
  rmatches : list nat;
  rsource : jsstring;
  rsourceIndex : nat
}.

(** [sources.entries()] *)
Definition entries (A : Type) (l : list A) : list (nat * A) :=
  combine (seq 0 (length l)) l.

(** The comparison function handed to [sort]. *)
Definition compareResults (a b : FuzzySearchResult) : Z :=
  if strictEq (rscore a) (rscore b)
  then (if gtStr (rsource a) (rsource b) then 1 else -1)
  else if gt (rscore a) (rscore b) then -1 else 1.

(** [Array.prototype.sort(comparefn)], as the stable insertion sort:
    an element moves in front of an earlier one only when [comparefn]
    puts the earlier one after it.  (ECMAScript fixes the order only
    for a comparison function that answers 0 on equal arguments, which
    [compareResults] never does; the order of two results with the same
    score and the same source is the engine's choice.) *)
Fixpoint insertBy (A : Type) (comparefn : A -> A -> Z) (x : A) (l : list A)
  : list A :=
  match l with
  | [] => [x]
  | y :: l' =>
      if (0 <? comparefn x y)%Z then y :: insertBy comparefn x l'
      else x :: l
  end.

Definition sortBy (A : Type) (comparefn : A -> A -> Z) (l : list A) : list A :=
  fold_right (insertBy comparefn) [] l.

(** The body of the [for] loop of [fuzzySearch]. *)
Definition searchStep (query : jsstring) (options : FuzzyMatchOptions)
    (results : list FuzzySearchResult) (entry : nat * jsstring)
  : list FuzzySearchResult :=
  let '(sourceIndex, source) := entry in
  let match_ := fuzzyMatch query source options in
  if gt (score match_) zero
  then results ++ [{| rscore := score match_;
                      rmatches := matches match_;
                      rsource := source;
                      rsourceIndex := sourceIndex |}]
  else results.

Definition fuzzySearch (query : jsstring) (sources : list jsstring)
    (options : FuzzyMatchOptions) : list FuzzySearchResult :=
  let results := fold_left (searchStep query options) (entries sources) [] in
  sortBy compareResults results.

(* ================================================================= *)
(** ** match.ts: [debugFuzzyMatch] *)

(** [red], [yellow] and [cyan]: a string between an escape sequence
    and the reset sequence. *)
Definition red (str : jsstring) : jsstring :=
  [27%N] ++ js "[31m" ++ str ++ [27%N] ++ js "[0m".

Definition yellow (str : jsstring) : jsstring :=
  [27%N] ++ js "[33m" ++ str ++ [27%N] ++ js "[0m".

Definition cyan (str : jsstring) : jsstring :=
  [27%N] ++ js "[32m" ++ str ++ [27%N] ++ js "[0m".

(** [matches.includes(i)] *)
Definition includes (matches : list nat) (i : nat) : bool :=
  existsb (Nat.eqb i) matches.

(** [source.split('').map((l, i) => matches.includes(i) ? yellow(l) : l).join('')] *)
Definition highlighted (source : jsstring) (matches : list nat) : jsstring :=
  concat (map (fun entry : nat * codeUnit =>
                 let '(i, l) := entry in
                 if includes matches i then yellow [l] else [l])
              (entries source)).

Section Debug.

(** The conversion of a number to a string in a template literal. *)
Variable numberToString : number -> jsstring.

(** The lines that [debugFuzzyMatch] hands to [console.log], in their
    order. *)
Definition debugFuzzyMatch (query source : jsstring) : list jsstring :=
  let match_ := fuzzyMatch query source noOptions in
  [js "Query: " ++ cyan query;
   js "Candidate: " ++ cyan source;
   if strictEq (score match_) zero
   then js "Result: " ++ red (js "no match")
   else
     let str := highlighted source (matches match_) in
     js "Result: " ++ str
       ++ js " (score: " ++ numberToString (score match_) ++ js ")"].

End Debug.

(* ================================================================= *)
(** ** What the specification speaks of *)

(** The invariant of a match result: the score is 0 exactly when there
    are no matched positions, and is positive when there are some. *)
Definition MatchResultInvariant (r : FuzzyMatchResult) : Prop :=
  (strictEq (score r) zero = true <-> matches r = [])
  /\ (matches r <> [] -> gt (score r) zero = true).

(** The sum of a sequence of positions, as numbers add up: from 0, one
    position after the other. *)
Definition sumOfPositions (positions : list nat) : number :=
  fold_left (fun sum m => add sum (ofNat m)) positions zero.

(** [q] is a subsequence of [s]. *)
Inductive Subseq : jsstring -> jsstring -> Prop :=
| Subseq_nil : forall s, Subseq [] s
| Subseq_take : forall c q s, Subseq q s -> Subseq (c :: q) (c :: s)
| Subseq_skip : forall c q s, Subseq q s -> Subseq q (c :: s).

(** [ps] is the leftmost-greedy embedding of [q] into [s] from index
    [from]: each position is the smallest index, at or after the
    previous position plus one, that holds the required unit. *)
Fixpoint LeftmostGreedy (s q : jsstring) (from : nat) (ps : list nat) : Prop :=
  match q, ps with
  | [], [] => True
  | c :: q', p :: ps' =>
      from <= p
      /\ nth_error s p = Some c
      /\ (forall j, from <= j < p -> nth_error s j <> Some c)
      /\ LeftmostGreedy s q' (p + 1) ps'
  | _, _ => False
  end.

(** [a] is ranked before [b]: a greater score, or the same score and a
    source that is not greater. *)
Definition RankedBefore (a b : FuzzySearchResult) : Prop :=
  gt (rscore a) (rscore b) = true
  \/ (strictEq (rscore a) (rscore b) = true
      /\ gtStr (rsource a) (rsource b) = false).

(** Position [p] is an index into [source], and the unit there,
    lower-cased, is the letter [c]. *)
Definition PositionHolds (source : jsstring) (p : nat) (c : codeUnit) : Prop :=
  p < length source /\ toLowerCase (charAt source p) = [c].

(* ================================================================= *)
(** ** Definitions for the proofs *)

(** *** The inputs of the repository's tests *)

Module TestInputs.

Local Open Scope string_scope.

(** One case of [match.test.ts]: the expected positions, and a score
    that is positive when positions are expected and 0 when none are. *)
Definition testCase (query source : String.string) (expected : list nat)
  : Prop :=
  let res := fuzzyMatch (js query) (js source) noOptions in
  matches res = expected
  /\ (match expected with
      | [] => strictEq (score res) zero
      | _ :: _ => gt (score res) zero
      end) = true.

Definition candidates : list jsstring :=
  map js ["DOM.getText"; "DOM.getInnerText"; "DOM.getTextContent";
          "DOM.queryAll"; "DOM.queryOne"; "DOM.batchExtract";
          "Value.containsText"; "Value.equalsText"; "String.extractRegexp"].

Definition found (query : String.string) : list (jsstring * list nat) :=
  map (fun r => (rsource r, rmatches r))
      (fuzzySearch (js query) candidates noOptions).

End TestInputs.

(** *** Comparisons *)

(** [SFcompare] on two finite values of one sign is the lexicographic
    comparison of exponent and mantissa. *)
Definition compareMagnitude (m1 : positive) (e1 : Z) (m2 : positive) (e2 : Z)
  : comparison :=
  match Z.compare e1 e2 with
  | Eq => Pos.compare m1 m2
  | c => c
  end.

Definition notGt (c : comparison) : bool :=
  match c with Gt => false | _ => true end.

Definition compose (c1 c2 : comparison) : comparison :=
  match c1, c2 with
  | Eq, Eq => Eq
  | _, _ => Lt
  end.

(** *** The search loop *)

(** The result kept for a candidate whose score is positive. *)
Definition resultFor (query : jsstring) (options : FuzzyMatchOptions)
    (sourceIndex : nat) (source : jsstring) : FuzzySearchResult :=
  {| rscore := score (fuzzyMatch query source options);
     rmatches := matches (fuzzyMatch query source options);
     rsource := source;
     rsourceIndex := sourceIndex |}.

(** *** The token loop *)

(** What is left to do in a state: the letters of the queue, and the
    calls of [exec] until [lastIndex] has passed the end. *)
Definition remaining (source : jsstring) (st : TokenState) : nat :=
  length (queue st) + (length source + 1 - lastIndex st).

(** One iteration of the loop. *)
Definition tokenStep (source : jsstring) (st : TokenState)
    (letter : codeUnit) (rest : jsstring) : TokenState :=
  if eqStr [letter] (toLowerCase (charAt source (cursor st)))
  then {| cursor := cursor st + 1;
          lastIndex := lastIndex st;
          queue := rest;
          matched := matched st ++ [cursor st] |}
  else {| cursor := match fst (TokenRegex.exec source (lastIndex st)) with
                    | None => length source
                    | Some index => index
                    end;
          lastIndex := snd (TokenRegex.exec source (lastIndex st));
          queue := queue st;
          matched := matched st |}.

(** *** Lower-casing *)

(** A code unit is fixed by lower-casing. *)
Definition fixedUnit (c : codeUnit) : Prop := lowerUnit c = [c].

Definition fixedUnits (s : jsstring) : bool :=
  forallb (fun d => eqStr (lowerUnit d) [d]) s.

(** *** Integers in numbers *)

(** [c] with [k] zero bits appended. *)
Definition shiftl (c : positive) (k : nat) : positive := Nat.iter k xO c.

Definition digits (c : positive) : Z := Zpos (digits2_pos c).

(** The number that holds the integer [c], when [c] has at most 53
    binary digits: a mantissa of 53 digits. *)
Definition canonical (c : positive) : number :=
  S754_finite false (shiftl c (Z.to_nat (53 - digits c))) (digits c - 53)%Z.

(** *** The candidates that a search keeps *)

(** The candidate of an entry is kept by [fuzzySearch]: its score is
    positive. *)
Definition kept (query : jsstring) (options : FuzzyMatchOptions)
    (entry : nat * jsstring) : bool :=
  gt (score (fuzzyMatch query (snd entry) options)) zero.

(** *** The tokens of a source *)

(** A unit of [[A-Za-z]]. *)
Definition isLetter (c : codeUnit) : bool :=
  TokenRegex.isLower c || TokenRegex.isUpper c.

(** The values that [regex.lastIndex] takes in successive calls of
    [regex.exec(source)]: 0 at first, then the index after each match. *)
Inductive LastIndex (source : jsstring) : nat -> Prop :=
| LastIndex_start : LastIndex source 0
| LastIndex_next : forall lastIndex index lastIndex',
    LastIndex source lastIndex ->
    TokenRegex.exec source lastIndex = (Some index, lastIndex') ->
    LastIndex source lastIndex'.

(** [index] is where a token of the source starts: the [m.index] of one
    of the successive calls of [regex.exec(source)]. *)
Definition TokenStart (source : jsstring) (index : nat) : Prop :=
  exists lastIndex lastIndex',
    LastIndex source lastIndex
    /\ TokenRegex.exec source lastIndex = (Some index, lastIndex').

(** Each position is 0, the start of a token, or the position after the
    one before it; [prev] is the position before the first. *)
Fixpoint Aligned (source : jsstring) (prev : option nat) (ps : list nat)
  : Prop :=
  match ps with
  | [] => True
  | p :: ps' =>
      (p = 0 \/ TokenStart source p \/ prev = Some (p - 1) /\ 0 < p)
      /\ Aligned source (Some p) ps'
  end.

(** The position before the next one. *)
Definition lastOf (prev : option nat) (ps : list nat) : option nat :=
  match rev ps with
  | p :: _ => Some p
  | [] => prev
  end.

(** What the loop keeps: [lastIndex] is one of the successive values of
    [regex.lastIndex], the recorded positions are aligned, and the
    cursor is at 0, at the end, at the start of a token, or after the
    last recorded position. *)
Definition Kept (source : jsstring) (st : TokenState) : Prop :=
  LastIndex source (lastIndex st)
  /\ Aligned source None (matched st)
  /\ (cursor st = 0 \/ length source <= cursor st
      \/ TokenStart source (cursor st)
      \/ lastOf None (matched st) = Some (cursor st - 1) /\ 0 < cursor st).

(** *** Results without their index *)

(** What a result shows of its candidate, without the index. *)
Definition shown (r : FuzzySearchResult) : jsstring * number * list nat :=
  (rsource r, rscore r, rmatches r).

(** [s] is ranked before [t] by the scores of their matches. *)
Definition SourceBefore (query : jsstring) (options : FuzzyMatchOptions)
    (s t : jsstring) : Prop :=
  RankedBefore (resultFor query options 0 s) (resultFor query options 0 t).

(** *** Escape sequences *)

(** A string without its escape sequences: what is between U+001B and
    the next "m", both included, is left out. *)
Fixpoint unstyleFrom (inEscape : bool) (s : jsstring) : jsstring :=
  match s with
  | [] => []
  | c :: s' =>
      if inEscape then unstyleFrom (negb (N.eqb c 109)) s'
      else if N.eqb c 27 then unstyleFrom true s'
      else c :: unstyleFrom false s'
  end.

Definition unstyle (s : jsstring) : jsstring := unstyleFrom false s.

#[global] Arguments lowerUnit : simpl never.
#[global] Arguments toLowerCase : simpl never.
#[global] Arguments isWhitespace : simpl never.
#[global] Arguments indexOf : simpl never.

(* ================================================================= *)
(** ** The test suite of the repository *)

Module TestSuite.

Import TestInputs.
Local Open Scope string_scope.

Example match_whole_words :
  testCase "text" "getText" [3; 4; 5; 6]
  /\ testCase "text" "get-text" [4; 5; 6; 7]
  /\ testCase "text" "get_text" [4; 5; 6; 7]
  /\ testCase "text" "Get Text" [4; 5; 6; 7]
  /\ testCase "text" "no match" [].
Proof. vm_compute. repeat split. Qed.

Example match_the_beginning_of_tokens :
  testCase "gt" "getText" [0; 3]
  /\ testCase "gt" "get-text" [0; 4]
  /\ testCase "gt" "get_text" [0; 4]
  /\ testCase "gt" "Get Text" [0; 4]
  /\ testCase "gt" "no match" [].
Proof. vm_compute. repeat split. Qed.

Example match_wildcard :
  testCase "text" "batchExtract" [2; 5; 6; 7]
  /\ testCase "text" "batch-extract" [2; 6; 7; 8]
  /\ testCase "text" "batch_extract" [2; 6; 7; 8]
  /\ testCase "text" "Batch Extract" [2; 6; 7; 8]
  /\ testCase "text" "No match" [].
Proof. vm_compute. repeat split. Qed.

Example search_text :
  found "text" =
    [(js "DOM.getText", [7; 8; 9; 10]);
     (js "DOM.getTextContent", [7; 8; 9; 10]);
     (js "DOM.getInnerText", [12; 13; 14; 15]);
     (js "Value.equalsText", [12; 13; 14; 15]);
     (js "Value.containsText", [14; 15; 16; 17]);
     (js "String.extractRegexp", [1; 7; 8; 9]);
     (js "DOM.batchExtract", [6; 9; 10; 11])].
Proof. vm_compute. reflexivity. Qed.

Example search_qall :
  found "qall" = [(js "DOM.queryAll", [4; 9; 10; 11])].
Proof. vm_compute. reflexivity. Qed.

Example search_aas :
  found "aas" =
    [(js "Value.equalsText", [1; 9; 11]);
     (js "Value.containsText", [1; 10; 13])].
Proof. vm_compute. reflexivity. Qed.

End TestSuite.

(* ================================================================= *)
(** ** The order of numbers *)

Module NumberOrder.

Lemma compareMagnitude_opp m1 e1 m2 e2 :
  compareMagnitude m2 e2 m1 e1 = CompOpp (compareMagnitude m1 e1 m2 e2).
Proof.
  unfold compareMagnitude.
  rewrite (Z.compare_antisym e1 e2), (Pos.compare_antisym m1 m2).
  destruct (e1 ?= e2)%Z; reflexivity.
Qed.

Lemma compareMagnitude_Eq m1 e1 m2 e2 :
  compareMagnitude m1 e1 m2 e2 = Eq <-> e1 = e2 /\ m1 = m2.
Proof.
  unfold compareMagnitude.
  destruct (Z.compare_spec e1 e2); destruct (Pos.compare_spec m1 m2);
    split; intros K; try discriminate; try tauto; destruct K; lia.
Qed.

Lemma compareMagnitude_Lt m1 e1 m2 e2 :
  compareMagnitude m1 e1 m2 e2 = Lt
  <-> (e1 < e2)%Z \/ (e1 = e2 /\ (m1 < m2)%positive).
Proof.
  unfold compareMagnitude.
  destruct (Z.compare_spec e1 e2); destruct (Pos.compare_spec m1 m2);
    split; intros K; try discriminate; try tauto; try lia.
Qed.

Lemma compareMagnitude_Gt m1 e1 m2 e2 :
  compareMagnitude m1 e1 m2 e2 = Gt
  <-> (e2 < e1)%Z \/ (e1 = e2 /\ (m2 < m1)%positive).
Proof.
  unfold compareMagnitude.
  destruct (Z.compare_spec e1 e2); destruct (Pos.compare_spec m1 m2);
    split; intros K; try discriminate; try tauto; try lia.
Qed.

Lemma SFcompare_finite s1 m1 e1 s2 m2 e2 :
  SFcompare (S754_finite s1 m1 e1) (S754_finite s2 m2 e2) =
  Some match s1, s2 with
       | true, false => Lt
       | false, true => Gt
       | false, false => compareMagnitude m1 e1 m2 e2
       | true, true => CompOpp (compareMagnitude m1 e1 m2 e2)
       end.
Proof.
  unfold compareMagnitude, Pos.compare. simpl.
  destruct s1, s2; try reflexivity; destruct (e1 ?= e2)%Z; reflexivity.
Qed.

(** Swapping the arguments swaps the answer. *)
Lemma SFcompare_swap (a b : number) (c : comparison) :
  SFcompare a b = Some c -> SFcompare b a = Some (CompOpp c).
Proof.
  destruct a as [sa|sa| |sa ma ea], b as [sb|sb| |sb mb eb];
    try (rewrite !SFcompare_finite; rewrite (compareMagnitude_opp ma ea mb eb));
    simpl; try discriminate;
    intros H; injection H as <-;
    try destruct sa; try destruct sb; try reflexivity.
Qed.

(** Two numbers neither of which is NaN compare. *)
Lemma SFcompare_total (a b : number) :
  a <> NaN -> b <> NaN -> exists c, SFcompare a b = Some c.
Proof.
  intros Ha Hb.
  destruct a, b; try (now elim Ha); try (now elim Hb); simpl; eauto.
Qed.

Lemma SFcompare_not_NaN (a b : number) (c : comparison) :
  SFcompare a b = Some c -> a <> NaN /\ b <> NaN.
Proof.
  destruct a, b; simpl; intros H; try discriminate; split; discriminate.
Qed.

Ltac magnitude :=
  repeat match goal with
         | H : compareMagnitude _ _ _ _ = Eq |- _ =>
             apply compareMagnitude_Eq in H
         | H : compareMagnitude _ _ _ _ = Lt |- _ =>
             apply compareMagnitude_Lt in H
         | H : compareMagnitude _ _ _ _ = Gt |- _ =>
             apply compareMagnitude_Gt in H
         | |- compareMagnitude _ _ _ _ = Eq => apply compareMagnitude_Eq
         | |- compareMagnitude _ _ _ _ = Lt => apply compareMagnitude_Lt
         | |- compareMagnitude _ _ _ _ = Gt => apply compareMagnitude_Gt
         end.

Lemma compareMagnitude_trans m1 e1 m2 e2 m3 e3 c1 c2 :
  compareMagnitude m1 e1 m2 e2 = c1 ->
  compareMagnitude m2 e2 m3 e3 = c2 ->
  notGt c1 = true -> notGt c2 = true ->
  compareMagnitude m1 e1 m3 e3 = compose c1 c2.
Proof.
  intros H1 H2 N1 N2.
  destruct c1, c2; try discriminate; simpl; magnitude; lia.
Qed.

Lemma compareMagnitude_trans_opp m1 e1 m2 e2 m3 e3 c1 c2 :
  CompOpp (compareMagnitude m1 e1 m2 e2) = c1 ->
  CompOpp (compareMagnitude m2 e2 m3 e3) = c2 ->
  notGt c1 = true -> notGt c2 = true ->
  CompOpp (compareMagnitude m1 e1 m3 e3) = compose c1 c2.
Proof.
  intros H1 H2 N1 N2.
  rewrite <- compareMagnitude_opp in *.
  destruct c1, c2; try discriminate; simpl; magnitude; lia.
Qed.

(** The comparison is transitive: [a <= b] and [b <= c] give [a <= c],
    with equality only from two equalities. *)
Lemma SFcompare_trans (a b c : number) (c1 c2 : comparison) :
  SFcompare a b = Some c1 -> SFcompare b c = Some c2 ->
  notGt c1 = true -> notGt c2 = true ->
  SFcompare a c = Some (compose c1 c2).
Proof.
  destruct a as [sa|sa| |sa ma ea], b as [sb|sb| |sb mb eb],
           c as [sc|sc| |sc mc ec];
    rewrite ?SFcompare_finite; simpl; try discriminate;
    intros H1 H2 N1 N2; injection H1 as H1; injection H2 as H2;
    f_equal;
    try (destruct sa); try (destruct sb); try (destruct sc);
    subst; try discriminate; try reflexivity;
    try (now destruct (compareMagnitude _ _ _ _));
    try (now destruct (CompOpp (compareMagnitude _ _ _ _))).
  - eapply compareMagnitude_trans_opp; eauto.
  - eapply compareMagnitude_trans; eauto.
Qed.

End NumberOrder.

(* ================================================================= *)
(** ** The order of strings *)

Module StringOrder.

Lemma compareStr_swap (a b : jsstring) :
  compareStr b a = CompOpp (compareStr a b).
Proof.
  revert b; induction a as [|x a IH]; intros [|y b]; simpl; trivial.
  rewrite (N.compare_antisym x y), IH.
  destruct (x ?= y)%N; reflexivity.
Qed.

Lemma compareStr_Eq (a b : jsstring) : compareStr a b = Eq -> a = b.
Proof.
  revert b; induction a as [|x a IH]; intros [|y b]; simpl;
    try discriminate; trivial.
  destruct (N.compare_spec x y); try discriminate.
  intros H'; subst; f_equal; auto.
Qed.

Lemma compareStr_refl (a : jsstring) : compareStr a a = Eq.
Proof.
  induction a as [|x a IH]; simpl; trivial.
  now rewrite N.compare_refl.
Qed.

(** [a <= b] and [b <= c] give [a <= c]. *)
Lemma compareStr_trans (a b c : jsstring) :
  compareStr a b <> Gt -> compareStr b c <> Gt -> compareStr a c <> Gt.
Proof.
  revert b c; induction a as [|x a IH]; intros [|y b] [|z c]; simpl;
    try congruence.
  destruct (N.compare_spec x y), (N.compare_spec y z), (N.compare_spec x z);
    try congruence; try lia; eauto.
Qed.

Lemma gtStr_asym (a b : jsstring) : gtStr a b = true -> gtStr b a = false.
Proof.
  unfold gtStr. rewrite (compareStr_swap a b).
  now destruct (compareStr a b).
Qed.

Lemma gtStr_trans (a b c : jsstring) :
  gtStr a b = false -> gtStr b c = false -> gtStr a c = false.
Proof.
  unfold gtStr. intros H1 H2.
  assert (H : compareStr a c <> Gt).
  { apply compareStr_trans with b.
    - now destruct (compareStr a b).
    - now destruct (compareStr b c). }
  now destruct (compareStr a c).
Qed.

End StringOrder.

(* ================================================================= *)
(** ** Sorting *)

Section Sorting.

Variable A : Type.
Variable comparefn : A -> A -> Z.

Lemma insertBy_perm (x : A) (l : list A) :
  Permutation (insertBy comparefn x l) (x :: l).
Proof.
  induction l as [|y l IH]; simpl; auto.
  destruct (0 <? comparefn x y)%Z; auto.
  rewrite IH. apply perm_swap.
Qed.

Lemma sortBy_perm (l : list A) : Permutation (sortBy comparefn l) l.
Proof.
  induction l as [|x l IH]; simpl; auto.
  rewrite insertBy_perm. now constructor.
Qed.

Lemma sortBy_In (l : list A) (x : A) : In x (sortBy comparefn l) <-> In x l.
Proof.
  split; apply Permutation_in;
    [apply sortBy_perm | apply Permutation_sym, sortBy_perm].
Qed.

(** The comparison function decides a relation [R] between the elements
    that satisfy [P]. *)
Variable P : A -> Prop.
Variable R : A -> A -> Prop.
Hypothesis R_trans : forall x y z, R x y -> R y z -> R x z.
Hypothesis before : forall x y,
  P x -> P y -> (0 <? comparefn x y)%Z = false -> R x y.
Hypothesis after : forall x y,
  P x -> P y -> (0 <? comparefn x y)%Z = true -> R y x.

Lemma insertBy_sorted (x : A) (l : list A) :
  P x -> Forall P l -> StronglySorted R l ->
  StronglySorted R (insertBy comparefn x l).
Proof.
  intros Px Pl Sl; induction Sl as [|y l Sl IH Hy]; simpl.
  - repeat constructor.
  - inversion Pl as [|? ? Py Pl']; subst.
    destruct (0 <? comparefn x y)%Z eqn:E.
    + constructor; auto.
      apply Forall_forall; intros z Hz.
      apply (Permutation_in _ (insertBy_perm x l)) in Hz.
      destruct Hz as [<-|Hz]; auto.
      rewrite Forall_forall in Hy; auto.
    + constructor; [now constructor|].
      constructor; auto.
      apply Forall_forall; intros z Hz.
      rewrite Forall_forall in Hy; eauto.
Qed.

Lemma sortBy_sorted (l : list A) :
  Forall P l -> StronglySorted R (sortBy comparefn l).
Proof.
  induction 1 as [|x l Px Pl IH]; simpl.
  - constructor.
  - apply insertBy_sorted; auto.
    apply Forall_forall; intros z Hz.
    apply -> sortBy_In in Hz. rewrite Forall_forall in Pl; auto.
Qed.

End Sorting.

(* ================================================================= *)
(** ** The search loop *)

Section SearchLoop.

Variable query : jsstring.
Variable options : FuzzyMatchOptions.

Lemma searchStep_app (results : list FuzzySearchResult) (e : nat * jsstring) :
  searchStep query options results e
  = results ++ searchStep query options [] e.
Proof.
  destruct e as [i s]; simpl.
  destruct (gt _ _); simpl; trivial.
  now rewrite app_nil_r.
Qed.

Lemma search_loop (es : list (nat * jsstring)) (results : list FuzzySearchResult) :
  fold_left (searchStep query options) es results
  = results ++ flat_map (searchStep query options []) es.
Proof.
  revert results; induction es as [|e es IH]; intros results; simpl.
  - now rewrite app_nil_r.
  - rewrite IH, (searchStep_app results e), <- app_assoc. reflexivity.
Qed.

Lemma searchStep_In (e : nat * jsstring) (r : FuzzySearchResult) :
  In r (searchStep query options [] e)
  <-> gt (score (fuzzyMatch query (snd e) options)) zero = true
      /\ r = resultFor query options (fst e) (snd e).
Proof.
  destruct e as [i s]; simpl.
  destruct (gt _ _); simpl; split.
  - intros [<-|[]]; auto.
  - intros [_ ->]; auto.
  - intros [].
  - intros [? _]; discriminate.
Qed.

End SearchLoop.

Lemma In_combine_seq (A : Type) (l : list A) (k i : nat) (x : A) :
  In (i, x) (combine (seq k (length l)) l)
  <-> k <= i /\ nth_error l (i - k) = Some x.
Proof.
  revert k; induction l as [|y l IH]; intros k; simpl.
  - split; [intros [] | intros [_ H]]. now destruct (i - k).
  - rewrite IH. split.
    + intros [H|[H1 H2]].
      * injection H as <- <-. rewrite Nat.sub_diag. auto.
      * split; [lia|]. replace (i - k) with (S (i - S k)) by lia. exact H2.
    + intros [H1 H2]. destruct (i - k) as [|j] eqn:E.
      * left. injection H2 as ->. f_equal. lia.
      * right. split; [lia|]. replace (i - S k) with j by lia. exact H2.
Qed.

Lemma In_entries (A : Type) (l : list A) (i : nat) (x : A) :
  In (i, x) (entries l) <-> nth_error l i = Some x.
Proof.
  unfold entries. rewrite In_combine_seq, Nat.sub_0_r.
  split; [tauto | split; [lia | trivial]].
Qed.

(** The results of a search: one for each candidate whose match has a
    positive score. *)
Lemma fuzzySearch_In (query : jsstring) (sources : list jsstring)
    (options : FuzzyMatchOptions) (r : FuzzySearchResult) :
  In r (fuzzySearch query sources options)
  <-> exists i source,
        nth_error sources i = Some source
        /\ gt (score (fuzzyMatch query source options)) zero = true
        /\ r = resultFor query options i source.
Proof.
  unfold fuzzySearch.
  rewrite sortBy_In, search_loop, app_nil_l, in_flat_map.
  split.
  - intros [[i s] [He Hr]].
    apply In_entries in He. apply searchStep_In in Hr.
    exists i, s. tauto.
  - intros (i & s & Hn & Hs & ->).
    exists (i, s). split.
    + now apply In_entries.
    + apply searchStep_In. auto.
Qed.

(* ================================================================= *)
(** ** The ranking *)

Module Ranking.

Import NumberOrder StringOrder.

Lemma gt_compare (a b : number) : gt a b = true <-> SFcompare b a = Some Lt.
Proof.
  unfold gt, SFltb.
  destruct (SFcompare b a) as [[]|]; split; congruence.
Qed.

Lemma strictEq_compare (a b : number) :
  strictEq a b = true <-> SFcompare b a = Some Eq.
Proof.
  unfold strictEq, SFeqb. split.
  - destruct (SFcompare a b) as [[]|] eqn:E; try discriminate.
    intros _. now apply SFcompare_swap in E.
  - intros E. apply SFcompare_swap in E. simpl in E. now rewrite E.
Qed.

Lemma positive_not_NaN (a : number) : gt a zero = true -> a <> NaN.
Proof.
  intros H. apply gt_compare, SFcompare_not_NaN in H. tauto.
Qed.

Lemma RankedBefore_compare (a b : FuzzySearchResult) :
  RankedBefore a b
  <-> exists c, SFcompare (rscore b) (rscore a) = Some c
                /\ notGt c = true
                /\ (c = Eq -> gtStr (rsource a) (rsource b) = false).
Proof.
  unfold RankedBefore. rewrite gt_compare, strictEq_compare. split.
  - intros [H|[H1 H2]]; [exists Lt | exists Eq]; repeat split;
      trivial; discriminate.
  - intros (c & H1 & H2 & H3). destruct c; try discriminate; auto.
Qed.

Lemma RankedBefore_trans (a b c : FuzzySearchResult) :
  RankedBefore a b -> RankedBefore b c -> RankedBefore a c.
Proof.
  rewrite !RankedBefore_compare.
  intros (c1 & H1 & N1 & S1) (c2 & H2 & N2 & S2).
  exists (compose c2 c1). split; [|split].
  - eapply SFcompare_trans; eauto.
  - now destruct c1, c2.
  - destruct c1, c2; try discriminate. intros _.
    eapply gtStr_trans; eauto.
Qed.

(** [compareResults a b] is not positive: [a] stays before [b]. *)
Lemma compareResults_before (a b : FuzzySearchResult) :
  (0 <? compareResults a b)%Z = false -> RankedBefore a b.
Proof.
  unfold compareResults, RankedBefore.
  destruct (strictEq _ _).
  - destruct (gtStr _ _); [discriminate | auto].
  - destruct (gt _ _); [auto | discriminate].
Qed.

(** [compareResults a b] is positive: [b] moves before [a]. *)
Lemma compareResults_after (a b : FuzzySearchResult) :
  rscore a <> NaN -> rscore b <> NaN ->
  (0 <? compareResults a b)%Z = true -> RankedBefore b a.
Proof.
  intros Na Nb. unfold compareResults.
  destruct (strictEq (rscore a) (rscore b)) eqn:E.
  - destruct (gtStr (rsource a) (rsource b)) eqn:G; [|discriminate].
    intros _. right. split.
    + apply strictEq_compare. apply strictEq_compare in E.
      now apply SFcompare_swap in E.
    + now apply gtStr_asym.
  - destruct (gt (rscore a) (rscore b)) eqn:G; [discriminate|].
    intros _. left. apply gt_compare.
    destruct (SFcompare_total Na Nb) as [c Hc].
    destruct c; trivial.
    + unfold strictEq, SFeqb in E. now rewrite Hc in E.
    + apply SFcompare_swap in Hc. simpl in Hc.
      apply gt_compare in Hc. congruence.
Qed.

End Ranking.

(* ================================================================= *)
(** ** The loop of the token matcher ends *)

Module TokenTermination.

Import TokenRegex.

Lemma backtrack_after (s : jsstring) (i k e : nat) :
  backtrack s i k = Some e -> i < e.
Proof.
  induction k as [|k IH]; simpl; destruct (lookahead s _);
    intros K; try discriminate; try (injection K as <-; lia); auto.
Qed.

Lemma matchAt_after (s : jsstring) (i e : nat) :
  matchAt s i = Some e -> i < e.
Proof.
  unfold matchAt. destruct (nth_error s i) as [c|]; [|discriminate].
  destruct (isLower c).
  - destruct (backtrack s i _) eqn:B.
    + intros K; injection K as <-. eapply backtrack_after; eauto.
    + destruct (isUpper c); intros K; [injection K as <-; lia | discriminate].
  - destruct (isUpper c); intros K; [injection K as <-; lia | discriminate].
Qed.

Lemma scan_after (s : jsstring) (n i index e : nat) :
  scan s i n = Some (index, e) -> i <= index < e.
Proof.
  revert i; induction n as [|n IH]; intros i; simpl;
    destruct (matchAt s i) eqn:M; intros K; try discriminate;
    try (injection K as <- <-; apply matchAt_after in M; lia).
  apply IH in K. lia.
Qed.

(** A successful [exec] moves [lastIndex] forward. *)
Lemma exec_progress (s : jsstring) (lastIndex index lastIndex' : nat) :
  exec s lastIndex = (Some index, lastIndex') ->
  lastIndex <= length s /\ lastIndex < lastIndex'.
Proof.
  unfold exec. destruct (Nat.ltb_spec (length s) lastIndex); [discriminate|].
  destruct (scan s lastIndex _) as [[i e]|] eqn:S; [|discriminate].
  intros K; injection K as <- <-. apply scan_after in S. lia.
Qed.

Lemma tokenLoop_eq (source : jsstring) (fuel : nat) (st : TokenState) :
  tokenLoop source fuel st
  = match queue st with
    | [] => Some {| score := fuzzyMatchScore source (matched st);
                    matches := matched st |}
    | letter :: rest =>
        if length source <=? cursor st then Some noMatch
        else match fuel with
             | 0 => None
             | S fuel' => tokenLoop source fuel' (tokenStep source st letter rest)
             end
    end.
Proof.
  unfold tokenStep.
  destruct fuel; cbn [tokenLoop]; trivial.
  destruct (queue st) as [|letter rest]; trivial.
  destruct (length source <=? cursor st); trivial.
  destruct (eqStr [letter] _); trivial.
  now destruct (exec source (lastIndex st)).
Qed.

Lemma tokenStep_remaining (source : jsstring) (st : TokenState)
    (letter : codeUnit) (rest : jsstring) :
  queue st = letter :: rest ->
  let st' := tokenStep source st letter rest in
  length source <= cursor st' \/ remaining source st' < remaining source st.
Proof.
  intros Q. unfold tokenStep, remaining.
  destruct (eqStr [letter] _); simpl.
  - right. rewrite Q. simpl. lia.
  - destruct (exec source (lastIndex st)) as [[index|] lastIndex'] eqn:E; simpl.
    + apply exec_progress in E. right. lia.
    + left. lia.
Qed.

Lemma tokenLoop_ends (source : jsstring) (fuel : nat) :
  forall st,
    queue st = [] \/ length source <= cursor st \/ remaining source st <= fuel ->
    exists r, tokenLoop source fuel st = Some r.
Proof.
  induction fuel as [|fuel IH]; intros st H; rewrite tokenLoop_eq;
    destruct (queue st) as [|letter rest] eqn:Q; eauto;
    destruct (Nat.leb_spec (length source) (cursor st)); eauto.
  - exfalso. unfold remaining in H. rewrite Q in H. simpl in H.
    destruct H as [H|[H|H]]; [discriminate | lia | lia].
  - apply IH. right.
    destruct (tokenStep_remaining source st Q) as [L|L]; [left; exact L|].
    right. destruct H as [H|[H|H]]; [discriminate | lia | lia].
Qed.

(** [fuzzyMatchByTokens] is the result of its loop: the fuel it gives is
    enough. *)
Lemma fuzzyMatchByTokens_loop (query source : jsstring) :
  tokenLoop source (tokenFuel query source) (tokenStart query)
  = Some (fuzzyMatchByTokens query source).
Proof.
  unfold fuzzyMatchByTokens.
  destruct (@tokenLoop_ends source (tokenFuel query source) (tokenStart query))
    as [r ->]; trivial.
  right; right. unfold remaining, tokenFuel, tokenStart; simpl. lia.
Qed.

(** More fuel does not change the result. *)
Lemma tokenLoop_more_fuel (source : jsstring) (fuel : nat) :
  forall st r, tokenLoop source fuel st = Some r ->
    forall fuel', fuel <= fuel' -> tokenLoop source fuel' st = Some r.
Proof.
  induction fuel as [|fuel IH]; intros st r H fuel' L;
    rewrite tokenLoop_eq in H; rewrite tokenLoop_eq;
    destruct (queue st); trivial;
    destruct (length source <=? cursor st); trivial; try discriminate.
  destruct fuel' as [|fuel']; [lia|].
  apply IH; [exact H | lia].
Qed.

End TokenTermination.

(* ================================================================= *)
(** ** The tokens of the regular expression *)

Module Tokens.

Import TokenRegex.

Lemma isLowerOrDigit_isWord (c : codeUnit) :
  isLowerOrDigit c = true -> isWord c = true.
Proof.
  unfold isLowerOrDigit, isWord.
  destruct (isLower c), (isDigit c), (isUpper c); simpl; trivial; discriminate.
Qed.

(** After the run the next unit, if there is one, is not of
    [[a-z0-9]]; the last unit of a run is. *)
Lemma run_next (rest : jsstring) :
  testAt isLowerOrDigit rest (run rest) = false.
Proof.
  unfold testAt. induction rest as [|c rest IH]; simpl; trivial.
  destruct (isLowerOrDigit c) eqn:E; simpl; trivial.
Qed.

Lemma run_last (rest : jsstring) (k : nat) :
  run rest = S k -> testAt isLowerOrDigit rest k = true.
Proof.
  unfold testAt. revert k; induction rest as [|c rest IH]; intros k; simpl.
  - discriminate.
  - destruct (isLowerOrDigit c) eqn:E; [|discriminate].
    intros H; injection H as H. destruct k as [|k]; simpl; trivial.
    apply IH. exact H.
Qed.

Lemma testAt_skipn (p : codeUnit -> bool) (s : jsstring) (i k : nat) :
  testAt p (skipn i s) k = testAt p s (i + k).
Proof. unfold testAt. now rewrite nth_error_skipn. Qed.

Lemma testAt_impl (p q : codeUnit -> bool) (s : jsstring) (i : nat) :
  (forall c, p c = true -> q c = true) ->
  testAt p s i = true -> testAt q s i = true.
Proof. unfold testAt. destruct (nth_error s i); auto. Qed.

(** A unit that is not of [[a-z0-9]] is an upper-case letter, an
    underscore, or no word unit. *)
Lemma lookahead_after_word (s : jsstring) (e : nat) :
  match e with 0 => False | S j => testAt isWord s j = true end ->
  testAt isLowerOrDigit s e = false ->
  lookahead s e = true.
Proof.
  intros Hprev Hnext. unfold lookahead, wordBoundary.
  destruct e as [|j]; [contradiction|]. rewrite Hprev.
  unfold testAt in *. destruct (nth_error s (S j)) as [c|]; trivial.
  rewrite (N.eqb_sym 95 c). unfold isWord, isLowerOrDigit in *.
  destruct (isLower c), (isDigit c), (isUpper c), (N.eqb c 95);
    simpl in *; trivial; discriminate.
Qed.

(** The first alternative never gives a unit back: a token that starts
    with a lower-case letter is that letter and the whole run of
    [[a-z0-9]] after it. *)
Lemma matchAt_lower (s : jsstring) (i : nat) (c : codeUnit) :
  nth_error s i = Some c -> isLower c = true ->
  matchAt s i = Some (i + 1 + run (skipn (i + 1) s)).
Proof.
  intros Hc L. unfold matchAt. rewrite Hc, L.
  assert (H : lookahead s (i + 1 + run (skipn (i + 1) s)) = true).
  { apply lookahead_after_word.
    - replace (i + 1 + run (skipn (i + 1) s))
        with (S (i + run (skipn (i + 1) s))) by lia.
      destruct (run (skipn (i + 1) s)) as [|k] eqn:R.
      + rewrite Nat.add_0_r. unfold testAt. rewrite Hc.
        unfold isWord. now rewrite L.
      + apply run_last in R. rewrite testAt_skipn in R.
        replace (i + S k) with (i + 1 + k) by lia.
        revert R. apply testAt_impl, isLowerOrDigit_isWord.
    - rewrite <- testAt_skipn. apply run_next. }
  destruct (run (skipn (i + 1) s)); simpl; now rewrite H.
Qed.

(** A token starts with a letter. *)
Lemma matchAt_letter (s : jsstring) (i e : nat) :
  matchAt s i = Some e ->
  testAt (fun c => isLower c || isUpper c) s i = true
  /\ e = i + 1 + run (skipn (i + 1) s).
Proof.
  unfold testAt. destruct (nth_error s i) as [c|] eqn:Hc.
  - destruct (isLower c) eqn:L.
    + rewrite (matchAt_lower _ _ Hc L). intros H; injection H as <-. auto.
    + unfold matchAt. rewrite Hc, L.
      destruct (isUpper c); [|discriminate].
      intros H; injection H as <-. auto.
  - unfold matchAt. rewrite Hc. discriminate.
Qed.

End Tokens.

(* ================================================================= *)
(** ** Lower-casing *)

Module LowerCase.

Lemma eqStr_eq (a b : jsstring) : eqStr a b = true <-> a = b.
Proof.
  revert b; induction a as [|x a IH]; intros [|y b]; simpl;
    try (split; [discriminate | discriminate]); try tauto.
  rewrite andb_true_iff, N.eqb_eq, IH.
  split; [intros [-> ->]; trivial | intros H; injection H; auto].
Qed.

Lemma inRange_above (lo hi c : codeUnit) :
  (hi < c)%N -> inRange lo hi c = false.
Proof.
  intros H. unfold inRange. apply andb_false_iff. right.
  apply N.leb_gt. exact H.
Qed.

(** Above the table a code unit is left as it is. *)
Lemma lowerUnit_above (c : codeUnit) : (382 < c)%N -> lowerUnit c = [c].
Proof.
  intros H. unfold lowerUnit.
  rewrite !inRange_above by lia.
  assert (E1 : N.eqb c 304 = false) by (apply N.eqb_neq; lia).
  assert (E2 : N.eqb c 376 = false) by (apply N.eqb_neq; lia).
  rewrite E1, E2. reflexivity.
Qed.

Lemma fixedUnits_Forall (s : jsstring) :
  fixedUnits s = true -> Forall fixedUnit s.
Proof.
  unfold fixedUnits. rewrite forallb_forall, Forall_forall.
  intros H d Hd. apply eqStr_eq. auto.
Qed.

Lemma table_fixed :
  forallb (fun c => fixedUnits (lowerUnit c)) (map N.of_nat (seq 0 383)) = true.
Proof. vm_compute. reflexivity. Qed.

(** Lower-casing yields code units that lower-casing leaves alone. *)
Lemma lowerUnit_fixed (c : codeUnit) : Forall fixedUnit (lowerUnit c).
Proof.
  destruct (N.le_gt_cases c 382) as [H|H].
  - apply fixedUnits_Forall.
    pose proof table_fixed as T. rewrite forallb_forall in T. apply T.
    apply in_map_iff. exists (N.to_nat c). split; [apply N2Nat.id|].
    apply in_seq. lia.
  - rewrite (lowerUnit_above H). constructor; [|constructor].
    exact (lowerUnit_above H).
Qed.

Lemma toLowerCase_fixed (s : jsstring) : Forall fixedUnit (toLowerCase s).
Proof.
  unfold toLowerCase. induction s as [|c s IH]; simpl.
  - constructor.
  - apply Forall_app. split; [apply lowerUnit_fixed | exact IH].
Qed.

Lemma stripWhitespace_fixed (s : jsstring) :
  Forall fixedUnit s -> Forall fixedUnit (stripWhitespace s).
Proof.
  unfold stripWhitespace. rewrite !Forall_forall.
  intros H c Hc. apply filter_In in Hc. apply H, Hc.
Qed.

(** The letters of a query, as both matchers see them. *)
Lemma query_fixed (query : jsstring) :
  Forall fixedUnit (stripWhitespace (toLowerCase query)).
Proof. apply stripWhitespace_fixed, toLowerCase_fixed. Qed.

Lemma toLowerCase_single (c : codeUnit) :
  fixedUnit c -> toLowerCase [c] = [c].
Proof.
  intros H. unfold toLowerCase. simpl. rewrite app_nil_r. exact H.
Qed.

End LowerCase.

(* ================================================================= *)
(** ** [indexOf] of a single code unit *)

Module IndexOf.

Lemma indexOfFrom_single (rest : jsstring) (c : codeUnit) (k : nat) :
  match indexOfFrom rest [c] k with
  | Some p => exists j, p = k + j
                        /\ nth_error rest j = Some c
                        /\ forall j', j' < j -> nth_error rest j' <> Some c
  | None => ~ In c rest
  end.
Proof.
  revert k; induction rest as [|y rest IH]; intros k; simpl.
  - tauto.
  - rewrite andb_true_r. destruct (N.eqb_spec c y) as [->|N].
    + exists 0. repeat split; [lia | intros j' Hj; lia].
    + specialize (IH (S k)). destruct (indexOfFrom rest [c] (S k)) as [p|].
      * destruct IH as (j & -> & Hj & Hmin). exists (S j).
        repeat split; [lia | exact Hj |].
        intros [|j'] Hlt; simpl; [congruence | apply Hmin; lia].
      * intros [E|E]; [congruence | tauto].
Qed.

(** A found index is the first one at or after [from] that holds [c]. *)
Lemma indexOf_single_Some (s : jsstring) (c : codeUnit) (from p : nat) :
  indexOf s [c] from = Some p ->
  from <= p
  /\ nth_error s p = Some c
  /\ forall j, from <= j < p -> nth_error s j <> Some c.
Proof.
  unfold indexOf. intros H.
  pose proof (indexOfFrom_single (skipn from s) c (Nat.min from (length s))) as I.
  rewrite H in I. destruct I as (j & -> & Hj & Hmin).
  assert (L : from <= length s).
  { destruct (Nat.le_gt_cases from (length s)) as [L|L]; trivial.
    rewrite skipn_all2 in Hj by lia. now destruct j. }
  rewrite Nat.min_l by exact L.
  rewrite nth_error_skipn in Hj.
  repeat split; [lia | exact Hj |].
  intros j' [H1 H2]. specialize (Hmin (j' - from)).
  rewrite nth_error_skipn in Hmin.
  replace (from + (j' - from)) with j' in Hmin by lia.
  apply Hmin. lia.
Qed.

Lemma indexOf_single_None (s : jsstring) (c : codeUnit) (from : nat) :
  indexOf s [c] from = None -> ~ In c (skipn from s).
Proof.
  unfold indexOf. intros H.
  pose proof (indexOfFrom_single (skipn from s) c (Nat.min from (length s))) as I.
  now rewrite H in I.
Qed.

End IndexOf.

(* ================================================================= *)
(** ** The wildcard matcher *)

Module Wildcard.

Import LowerCase IndexOf.

Lemma Subseq_tail (c : codeUnit) (q s : jsstring) :
  Subseq (c :: q) s -> Subseq q s.
Proof.
  induction s as [|x s IH]; intros H; inversion H; subst.
  - now apply Subseq_skip.
  - apply Subseq_skip. auto.
Qed.

Lemma Subseq_head_In (c : codeUnit) (q s : jsstring) :
  Subseq (c :: q) s -> In c s.
Proof.
  induction s as [|x s IH]; intros H; inversion H; subst; simpl; auto.
Qed.

(** If a sequence that starts with [c] is a subsequence, so is its tail
    after the first [c]: taking the first occurrence loses nothing. *)
Lemma Subseq_after_first (c : codeUnit) (q s : jsstring) (j : nat) :
  Subseq (c :: q) s ->
  nth_error s j = Some c ->
  (forall j', j' < j -> nth_error s j' <> Some c) ->
  Subseq q (skipn (S j) s).
Proof.
  revert j; induction s as [|x s IH]; intros j H Hj Hmin.
  - inversion H.
  - destruct j as [|j].
    + simpl in *. injection Hj as ->.
      inversion H; subst; trivial. now apply Subseq_tail with c.
    + inversion H; subst.
      * exfalso. apply (Hmin 0); [lia | reflexivity].
      * change (Subseq q (skipn (S j) s)). apply IH; trivial.
        intros j' Hlt. apply (Hmin (S j')). lia.
Qed.

Lemma Subseq_at (c : codeUnit) (q s : jsstring) (j : nat) :
  nth_error s j = Some c -> Subseq q (skipn (S j) s) -> Subseq (c :: q) s.
Proof.
  revert j; induction s as [|x s IH]; intros [|j] Hj H; simpl in *;
    try discriminate.
  - injection Hj as ->. now apply Subseq_take.
  - apply Subseq_skip. eauto.
Qed.

(** The positions found so far stay in front of the ones found later. *)
Lemma wildcardLoop_acc (sl q : jsstring) :
  forall from acc,
    wildcardLoop sl q from acc
    = option_map (app acc) (wildcardLoop sl q from []).
Proof.
  induction q as [|c q IH]; intros from acc; simpl.
  - now rewrite app_nil_r.
  - destruct (indexOf sl _ from) as [idx|]; trivial.
    rewrite (IH (idx + 1) (acc ++ [idx])), (IH (idx + 1) [idx]).
    destruct (wildcardLoop sl q (idx + 1) []); simpl; trivial.
    now rewrite <- app_assoc.
Qed.

(** One round of the loop, for a letter that lower-casing leaves
    alone. *)
Lemma wildcardLoop_cons (sl q : jsstring) (c : codeUnit) (from : nat) :
  fixedUnit c ->
  wildcardLoop sl (c :: q) from []
  = match indexOf sl [c] from with
    | None => None
    | Some idx => option_map (cons idx) (wildcardLoop sl q (idx + 1) [])
    end.
Proof.
  intros F. simpl. rewrite (toLowerCase_single F).
  destruct (indexOf sl [c] from) as [idx|]; trivial.
  now rewrite wildcardLoop_acc.
Qed.

(** What the loop returns is the leftmost-greedy embedding. *)
Lemma wildcardLoop_greedy (sl q : jsstring) :
  Forall fixedUnit q ->
  forall from ps,
    wildcardLoop sl q from [] = Some ps -> LeftmostGreedy sl q from ps.
Proof.
  induction 1 as [|c q F Fq IH]; intros from ps.
  - simpl. intros H; injection H as <-. exact I.
  - rewrite (wildcardLoop_cons _ _ _ F).
    destruct (indexOf sl [c] from) as [idx|] eqn:E; [|discriminate].
    destruct (wildcardLoop sl q (idx + 1) []) as [ps'|] eqn:L; [|discriminate].
    simpl. intros H; injection H as <-.
    apply indexOf_single_Some in E. simpl. intuition.
Qed.

(** The loop succeeds exactly on the subsequences. *)
Lemma wildcardLoop_Subseq (sl q : jsstring) :
  Forall fixedUnit q ->
  forall from,
    (exists ps, wildcardLoop sl q from [] = Some ps)
    <-> Subseq q (skipn from sl).
Proof.
  induction 1 as [|c q F Fq IH]; intros from.
  - simpl. split; [intros _; constructor | eauto].
  - rewrite (wildcardLoop_cons _ _ _ F).
    destruct (indexOf sl [c] from) as [idx|] eqn:E.
    + apply indexOf_single_Some in E. destruct E as (L & Hc & Hmin).
      assert (S : skipn (S (idx - from)) (skipn from sl) = skipn (idx + 1) sl).
      { rewrite skipn_skipn. f_equal. lia. }
      assert (N : nth_error (skipn from sl) (idx - from) = Some c).
      { rewrite nth_error_skipn. now replace (from + (idx - from)) with idx by lia. }
      split.
      * intros [ps Hps].
        destruct (wildcardLoop sl q (idx + 1) []) as [ps'|] eqn:W; [|discriminate].
        apply Subseq_at with (idx - from); trivial.
        rewrite S. apply IH. eauto.
      * intros H. apply Subseq_after_first with (j := idx - from) in H; trivial.
        -- rewrite S in H. apply IH in H. destruct H as [ps' ->]. simpl. eauto.
        -- intros j' Hj'. rewrite nth_error_skipn. apply Hmin. lia.
    + apply indexOf_single_None in E. split.
      * intros [ps Hps]. discriminate.
      * intros H. apply Subseq_head_In in H. contradiction.
Qed.

Lemma wildcardLoop_length (sl q : jsstring) :
  forall from acc ps,
    wildcardLoop sl q from acc = Some ps -> length ps = length acc + length q.
Proof.
  induction q as [|c q IH]; intros from acc ps; simpl.
  - intros H; injection H as <-. lia.
  - destruct (indexOf sl _ from) as [idx|]; [|discriminate].
    intros H. apply IH in H. rewrite length_app in H. simpl in H. lia.
Qed.

(** A leftmost-greedy embedding is strictly increasing, from [from]
    on. *)
Lemma LeftmostGreedy_increasing (s q : jsstring) :
  forall from ps,
    LeftmostGreedy s q from ps ->
    Forall (fun p => from <= p) ps /\ StronglySorted Nat.lt ps.
Proof.
  induction q as [|c q IH]; intros from [|p ps]; simpl; try tauto.
  - intros _. split; constructor.
  - intros (L & _ & _ & G). apply IH in G. destruct G as [G1 G2].
    split; constructor; trivial.
    + eapply Forall_impl; [|exact G1]. simpl. intros; lia.
    + eapply Forall_impl; [|exact G1]. simpl. unfold Nat.lt. intros; lia.
Qed.

(** The result of the wildcard matcher, from the result of its loop. *)
Lemma fuzzyMatchByWildcard_matches (query source : jsstring) :
  matches (fuzzyMatchByWildcard query source)
  = match wildcardLoop (toLowerCase source)
            (stripWhitespace (toLowerCase query)) 0 [] with
    | Some ps => ps
    | None => []
    end.
Proof.
  unfold fuzzyMatchByWildcard. now destruct (wildcardLoop _ _ 0 []).
Qed.

End Wildcard.

(* ================================================================= *)
(** ** Integers in numbers *)

Module ExactIntegers.

Local Open Scope Z_scope.

Lemma digits_pos (c : positive) : 1 <= digits c.
Proof. unfold digits. lia. Qed.

Lemma digits_shiftl (c : positive) (k : nat) :
  digits (shiftl c k) = digits c + Z.of_nat k.
Proof.
  unfold digits, shiftl. induction k as [|k IH].
  - simpl. lia.
  - change (Nat.iter (S k) xO c) with (xO (Nat.iter k xO c)).
    cbn [digits2_pos]. rewrite Pos2Z.inj_succ, IH. lia.
Qed.

Lemma shiftl_shiftl (c : positive) (j k : nat) :
  shiftl (shiftl c j) k = shiftl c (k + j)%nat.
Proof. unfold shiftl. now rewrite Nat.iter_add. Qed.

Lemma shiftl_add (a b : positive) (k : nat) :
  (shiftl a k + shiftl b k = shiftl (a + b) k)%positive.
Proof.
  unfold shiftl. induction k as [|k IH]; simpl; trivial.
  now rewrite <- IH.
Qed.

Lemma Pos_iter_shiftl (c d : positive) :
  Pos.iter xO c d = shiftl c (Pos.to_nat d).
Proof. unfold shiftl, Nat.iter. apply Pos2Nat.inj_iter. Qed.

Lemma digits_lower (c : positive) : 2 ^ (digits c - 1) <= Zpos c.
Proof.
  unfold digits. induction c as [c IH|c IH|]; simpl digits2_pos.
  - rewrite Pos2Z.inj_succ.
    replace (Z.succ (Zpos (digits2_pos c)) - 1) with (Z.succ (Zpos (digits2_pos c) - 1)) by lia.
    rewrite Z.pow_succ_r by lia. lia.
  - rewrite Pos2Z.inj_succ.
    replace (Z.succ (Zpos (digits2_pos c)) - 1) with (Z.succ (Zpos (digits2_pos c) - 1)) by lia.
    rewrite Z.pow_succ_r by lia. lia.
  - simpl. lia.
Qed.

Lemma digits_upper (c : positive) : Zpos c < 2 ^ digits c.
Proof.
  unfold digits. induction c as [c IH|c IH|]; simpl digits2_pos;
    rewrite ?Pos2Z.inj_succ, ?Z.pow_succ_r by lia; lia.
Qed.

Lemma digits_le_53 (c : positive) : Zpos c < 2 ^ 53 -> digits c <= 53.
Proof.
  intros H. pose proof (digits_lower c) as L.
  destruct (Z.le_gt_cases (digits c) 53) as [K|K]; trivial.
  assert (2 ^ 53 <= 2 ^ (digits c - 1)) by (apply Z.pow_le_mono_r; lia).
  lia.
Qed.

(** The iteration of [SpecFloat]. *)
Lemma iter_pos_nat (A : Type) (f : A -> A) (p : positive) :
  forall x, iter_pos f p x = Nat.iter (Pos.to_nat p) f x.
Proof.
  induction p as [p IH|p IH|]; intros x; simpl iter_pos.
  - rewrite !IH, Pos2Nat.inj_xI.
    replace (S (2 * Pos.to_nat p))%nat with (Pos.to_nat p + (Pos.to_nat p + 1))%nat by lia.
    rewrite !Nat.iter_add. reflexivity.
  - rewrite !IH, Pos2Nat.inj_xO.
    replace (2 * Pos.to_nat p)%nat with (Pos.to_nat p + Pos.to_nat p)%nat by lia.
    rewrite Nat.iter_add. reflexivity.
  - reflexivity.
Qed.

(** Shifting appended zero bits out again is exact. *)
Lemma shr_zeros (c : positive) (k : nat) :
  Nat.iter k shr_1 (Build_shr_record (Zpos (shiftl c k)) false false)
  = Build_shr_record (Zpos c) false false.
Proof.
  induction k as [|k IH]; trivial.
  rewrite Nat.iter_succ_r. exact IH.
Qed.

Lemma shr_exact (c : positive) (k : nat) (e n : Z) :
  0 <= n <= Z.of_nat k ->
  shr (Build_shr_record (Zpos (shiftl c k)) false false) e n
  = (Build_shr_record (Zpos (shiftl c (k - Z.to_nat n))) false false, e + n).
Proof.
  intros H. destruct n as [|p|p]; try lia.
  - simpl. rewrite Nat.sub_0_r, Z.add_0_r. reflexivity.
  - unfold shr. rewrite iter_pos_nat. f_equal.
    replace (shiftl c k)
      with (shiftl (shiftl c (k - Z.to_nat (Zpos p))) (Pos.to_nat p)).
    + apply shr_zeros.
    + rewrite shiftl_shiftl. f_equal. lia.
Qed.

Lemma fexp_small (d : Z) : 1 <= d <= 54 -> fexp prec emax d = d - 53.
Proof. unfold fexp, emin, prec, emax. lia. Qed.

(** Rounding a mantissa of 53 digits changes nothing. *)
Lemma binary_round_aux_from (m m' : positive) (e e' : Z) :
  shr_fexp prec emax (Zpos m) e loc_Exact
  = (Build_shr_record (Zpos m') false false, e') ->
  digits m' = 53 -> -52 <= e' <= 0 ->
  binary_round_aux prec emax false (Zpos m) e loc_Exact
  = S754_finite false m' e'.
Proof.
  intros S D E. unfold binary_round_aux. rewrite S.
  cbn [shr_m loc_of_shr_record round_nearest_even].
  unfold shr_fexp. cbn [Zdigits2]. fold (digits m'). rewrite D.
  rewrite fexp_small by lia.
  replace (53 + e' - 53 - e') with 0 by lia.
  cbn [shr shr_record_of_loc shr_m].
  unfold emax, prec.
  destruct (Z.leb_spec e' (1024 - 53)); [reflexivity | lia].
Qed.

Lemma binary_round_shiftl (c : positive) (k : nat) :
  digits c <= 53 ->
  binary_round prec emax false (shiftl c k) (- Z.of_nat k) = canonical c.
Proof.
  intros D. pose proof (digits_pos c) as P.
  unfold binary_round, canonical.
  fold (digits (shiftl c k)). rewrite digits_shiftl.
  replace (digits c + Z.of_nat k + - Z.of_nat k) with (digits c) by lia.
  rewrite fexp_small by lia.
  unfold shl_align.
  destruct (digits c - 53 - - Z.of_nat k) as [|p|p] eqn:E.
  - apply binary_round_aux_from; try lia.
    + unfold shr_fexp. cbn [Zdigits2 shr_record_of_loc].
      fold (digits (shiftl c k)). rewrite digits_shiftl.
      replace (digits c + Z.of_nat k + - Z.of_nat k) with (digits c) by lia.
      rewrite fexp_small by lia.
      rewrite (@shr_exact c k) by lia.
      f_equal; [|lia]. do 3 f_equal. lia.
    + rewrite digits_shiftl. lia.
  - apply binary_round_aux_from; try lia.
    + unfold shr_fexp. cbn [Zdigits2 shr_record_of_loc].
      fold (digits (shiftl c k)). rewrite digits_shiftl.
      replace (digits c + Z.of_nat k + - Z.of_nat k) with (digits c) by lia.
      rewrite fexp_small by lia.
      rewrite (@shr_exact c k) by lia.
      f_equal; [|lia]. do 3 f_equal. lia.
    + rewrite digits_shiftl. lia.
  - rewrite Pos_iter_shiftl, shiftl_shiftl.
    replace (Pos.to_nat p + k)%nat with (Z.to_nat (53 - digits c)) by lia.
    apply binary_round_aux_from; try lia.
    + unfold shr_fexp. cbn [Zdigits2 shr_record_of_loc].
      fold (digits (shiftl c (Z.to_nat (53 - digits c)))).
      rewrite digits_shiftl.
      rewrite fexp_small by lia.
      replace (digits c + Z.of_nat (Z.to_nat (53 - digits c)) + (digits c - 53) - 53 - (digits c - 53)) with 0 by lia.
      reflexivity.
    + rewrite digits_shiftl. lia.
Qed.

Lemma ofZ_canonical (c : positive) :
  Zpos c < 2 ^ 53 -> ofZ (Zpos c) = canonical c.
Proof.
  intros H. unfold ofZ, binary_normalize.
  apply (@binary_round_shiftl c 0). now apply digits_le_53.
Qed.

Lemma shl_align_shiftl (m : positive) (e ez : Z) :
  ez <= e -> fst (shl_align m e ez) = shiftl m (Z.to_nat (e - ez)).
Proof.
  intros H. unfold shl_align.
  destruct (ez - e) as [|p|p] eqn:E; try lia.
  - replace (e - ez) with 0 by lia. reflexivity.
  - cbn [fst]. rewrite Pos_iter_shiftl. f_equal. lia.
Qed.

Lemma digits_mono (a b : positive) : (a <= b)%positive -> digits a <= digits b.
Proof.
  intros H. pose proof (digits_lower a) as La.
  pose proof (digits_upper b) as Ub.
  destruct (Z.le_gt_cases (digits a) (digits b)) as [K|K]; trivial.
  assert (2 ^ digits b <= 2 ^ (digits a - 1)) by (apply Z.pow_le_mono_r; lia).
  lia.
Qed.

(** The sum of two integers is exact while it has at most 53 digits. *)
Lemma add_canonical (a b : positive) :
  Zpos (a + b) < 2 ^ 53 ->
  add (canonical a) (canonical b) = canonical (a + b).
Proof.
  intros H.
  assert (Dab : digits (a + b) <= 53) by now apply digits_le_53.
  assert (Da : digits a <= digits (a + b)) by (apply digits_mono; lia).
  assert (Db : digits b <= digits (a + b)) by (apply digits_mono; lia).
  pose proof (digits_pos a) as Pa. pose proof (digits_pos b) as Pb.
  unfold add, canonical, SFadd, cond_Zopp.
  set (ez := Z.min (digits a - 53) (digits b - 53)).
  cbv zeta.
  rewrite !shl_align_shiftl by lia.
  rewrite !shiftl_shiftl.
  replace (Z.to_nat (digits a - 53 - ez) + Z.to_nat (53 - digits a))%nat
    with (Z.to_nat (- ez)) by lia.
  replace (Z.to_nat (digits b - 53 - ez) + Z.to_nat (53 - digits b))%nat
    with (Z.to_nat (- ez)) by lia.
  rewrite <- Pos2Z.inj_add, shiftl_add.
  unfold binary_normalize.
  replace ez with (- Z.of_nat (Z.to_nat (- ez))) at 2 by lia.
  now apply binary_round_shiftl.
Qed.

(** The sum of two naturals is exact below 2^53. *)
Lemma add_ofNat (a b : nat) :
  Z.of_nat (a + b) < 2 ^ 53 -> add (ofNat a) (ofNat b) = ofNat (a + b).
Proof.
  intros H. unfold ofNat.
  destruct a as [|a]; [destruct b as [|b]|destruct b as [|b]].
  - reflexivity.
  - rewrite Nat.add_0_l in *.
    rewrite <- (Z2Pos.id (Z.of_nat (S b))) in * by lia.
    rewrite ofZ_canonical by lia. reflexivity.
  - rewrite Nat.add_0_r in *.
    rewrite <- (Z2Pos.id (Z.of_nat (S a))) in * by lia.
    rewrite ofZ_canonical by lia. reflexivity.
  - rewrite Nat2Z.inj_add in *.
    rewrite <- (Z2Pos.id (Z.of_nat (S a))), <- (Z2Pos.id (Z.of_nat (S b))) in * by lia.
    rewrite <- Pos2Z.inj_add in *.
    rewrite !ofZ_canonical by lia.
    now apply add_canonical.
Qed.

(** The sum in the scorer, from any exact start. *)
Lemma sum_exact (positions : list nat) :
  forall a : nat,
    Z.of_nat (a + list_sum positions) < 2 ^ 53 ->
    fold_left (fun sum m => add sum (ofNat m)) positions (ofNat a)
    = ofNat (a + list_sum positions).
Proof.
  induction positions as [|m positions IH]; intros a H; simpl in *.
  - now rewrite Nat.add_0_r.
  - rewrite add_ofNat by lia. rewrite IH by (rewrite <- Nat.add_assoc; exact H).
    f_equal. lia.
Qed.

End ExactIntegers.

(* ================================================================= *)
(** ** Where the matched positions are faithful *)

Module Positions.

Import TokenTermination LowerCase IndexOf Wildcard.

(** The token matcher records a position only where the letter is. *)
Lemma tokenLoop_positions (source : jsstring) (fuel : nat) :
  forall st r consumed,
    Forall2 (PositionHolds source) (matched st) consumed ->
    tokenLoop source fuel st = Some r ->
    r = noMatch
    \/ Forall2 (PositionHolds source) (matches r) (consumed ++ queue st).
Proof.
  induction fuel as [|fuel IH]; intros st r consumed F H;
    rewrite tokenLoop_eq in H;
    destruct (queue st) as [|letter rest] eqn:Q;
    try (injection H as <-; right; now rewrite app_nil_r);
    destruct (Nat.leb_spec (length source) (cursor st)) as [L|L];
    try (injection H as <-; now left); try discriminate.
  unfold tokenStep in H.
  destruct (eqStr [letter] _) eqn:E.
  - apply IH with (consumed := consumed ++ [letter]) in H.
    + simpl in H. now rewrite <- app_assoc in H.
    + simpl. apply Forall2_app; trivial.
      constructor; [|constructor]. split; trivial.
      apply eqStr_eq in E. now symmetry.
  - apply IH with (consumed := consumed) in H; trivial.
    simpl in H. now rewrite Q in H.
Qed.

Lemma fuzzyMatchByTokens_positions (query source : jsstring) :
  fuzzyMatchByTokens query source = noMatch
  \/ Forall2 (PositionHolds source)
       (matches (fuzzyMatchByTokens query source))
       (stripWhitespace (toLowerCase query)).
Proof.
  pose proof (fuzzyMatchByTokens_loop query source) as H.
  apply tokenLoop_positions with (consumed := []) in H; [exact H | constructor].
Qed.

(** Every unit but U+0130 lower-cases to one unit. *)
Lemma lowerUnit_single (u : codeUnit) :
  u <> 304%N -> exists x, lowerUnit u = [x].
Proof.
  intros N. unfold lowerUnit.
  destruct (N.eqb_spec u 304) as [E|_]; [contradiction|].
  repeat match goal with
         | |- context [if ?b then _ else _] => destruct b
         end; eauto.
Qed.

(** Without U+0130 the lower-cased source has its units where the
    source has them. *)
Lemma toLowerCase_position (source : jsstring) :
  ~ In 304%N source ->
  forall p c,
    nth_error (toLowerCase source) p = Some c -> PositionHolds source p c.
Proof.
  unfold PositionHolds, charAt, toLowerCase.
  induction source as [|u source IH]; intros N p c H.
  - now destruct p.
  - destruct (@lowerUnit_single u) as [x Hx]; [intros ->; apply N; now left|].
    simpl in H. rewrite Hx in H. destruct p as [|p]; simpl in *.
    + injection H as ->. split; [lia|]. now rewrite Hx.
    + apply IH in H; [|tauto]. split; [lia | tauto].
Qed.

Lemma LeftmostGreedy_positions (source q : jsstring) :
  ~ In 304%N source ->
  forall from ps,
    LeftmostGreedy (toLowerCase source) q from ps ->
    Forall2 (PositionHolds source) ps q.
Proof.
  intros N. induction q as [|c q IH]; intros from [|p ps]; simpl; try tauto.
  - constructor.
  - intros (_ & H & _ & G). constructor; eauto.
    now apply toLowerCase_position.
Qed.

End Positions.

(* ================================================================= *)
(** ** Bounds on the positions of the wildcard matcher *)

Module WildcardBounds.
Import Wildcard.

(** Strictly increasing positions below [n] are at most [n]. *)
Lemma increasing_length (ps : list nat) :
  forall from n,
    Forall (fun p => from <= p) ps -> StronglySorted Nat.lt ps ->
    Forall (fun p => p < n) ps -> from + length ps <= Nat.max from n.
Proof.
  induction ps as [|p ps IH]; intros from n F Sd B; simpl; [lia|].
  inversion F as [|? ? Fp F']; inversion Sd as [|? ? S' Sp];
    inversion B as [|? ? Bp B']; subst.
  assert (H : S p + length ps <= Nat.max (S p) n).
  { apply IH; trivial. }
  lia.
Qed.

Lemma LeftmostGreedy_bounded (s q : jsstring) :
  forall from ps,
    LeftmostGreedy s q from ps -> Forall (fun p => p < length s) ps.
Proof.
  induction q as [|c q IH]; intros from [|p ps]; simpl; try tauto.
  - constructor.
  - intros (_ & H & _ & G). constructor; eauto.
    apply nth_error_Some. congruence.
Qed.

End WildcardBounds.

(* ================================================================= *)
(** ** Properties of [fuzzyMatchScore] *)

(** C5: for every source of length [L] and every sequence of [n]
    positions with sum [S], [fuzzyMatchScore] is the quotient
    [n / (S - n / L)] of numbers; the sum [S] of the positions, which
    the code adds up as numbers, is their sum as integers whenever that
    is below 2^53, where numbers add integers without rounding. *)
Theorem fuzzyMatchScore_formula (source : jsstring) (positions : list nat) :
  let L := ofNat (length source) in
  let n := ofNat (length positions) in
  let S := sumOfPositions positions in
  fuzzyMatchScore source positions = div n (sub S (div n L))
  /\ ((Z.of_nat (list_sum positions) < 2 ^ 53)%Z ->
      S = ofNat (list_sum positions)).
Proof.
  split; [reflexivity|].
  intros H. unfold sumOfPositions. change zero with (ofNat 0).
  now rewrite ExactIntegers.sum_exact.
Qed.

Lemma fuzzyMatchScore_formula_witness :
  let source := js "DOM.getText" in
  let positions := [7; 8; 9; 10] in
  (Z.of_nat (list_sum positions) < 2 ^ 53)%Z
  /\ sumOfPositions positions = ofNat 34
  /\ fuzzyMatchScore source positions
     = div (ofNat 4) (sub (ofNat 34) (div (ofNat 4) (ofNat 11))).
Proof.
  intros source positions.
  assert (H : (Z.of_nat (list_sum positions) < 2 ^ 53)%Z)
    by (vm_compute; reflexivity).
  destruct (fuzzyMatchScore_formula source positions) as [F E].
  specialize (E H).
  split; [exact H|]. split; [exact E|].
  rewrite F, E. reflexivity.
Defined.

(* ================================================================= *)
(** ** The scorer at a single position 0, and without positions *)

Lemma tokens_g_go :
  fuzzyMatchByTokens (js "g") (js "go") = {| score := ofZ (-2); matches := [0] |}.
Proof. vm_compute. reflexivity. Qed.

Lemma wildcard_g_go :
  fuzzyMatchByWildcard (js "g") (js "go")
  = {| score := ofZ (-2); matches := [0] |}.
Proof. vm_compute. reflexivity. Qed.

Lemma fuzzyMatch_g_go (options : FuzzyMatchOptions) :
  fuzzyMatch (js "g") (js "go") options
  = {| score := ofZ (-2); matches := [0] |}.
Proof.
  unfold fuzzyMatch. rewrite tokens_g_go, wildcard_g_go. reflexivity.
Qed.

(** C1 (the code breaks it): the invariant of a match result, score 0
    exactly when there are no positions and a positive score when there
    are some, fails for query "g" and source "go", where the only
    position is 0 and the score is -2, and for the empty query, where
    there are no positions and the score is NaN. *)
Theorem match_invariant_broken :
  fuzzyMatch (js "g") (js "go") noOptions
  = {| score := ofZ (-2); matches := [0] |}
  /\ ~ MatchResultInvariant (fuzzyMatch (js "g") (js "go") noOptions)
  /\ fuzzyMatch (js "") (js "go") noOptions = {| score := NaN; matches := [] |}
  /\ ~ MatchResultInvariant (fuzzyMatch (js "") (js "go") noOptions).
Proof.
  assert (E1 := fuzzyMatch_g_go noOptions).
  assert (E2 : fuzzyMatch (js "") (js "go") noOptions
               = {| score := NaN; matches := [] |}) by (vm_compute; reflexivity).
  rewrite E1, E2. repeat split.
  - intros [_ H]. simpl in H.
    assert (K : [0] <> @nil nat) by discriminate.
    apply H in K. vm_compute in K. discriminate.
  - intros [[_ H] _]. simpl in H. specialize (H eq_refl).
    vm_compute in H. discriminate.
Qed.

(** C9: query "g" is a subsequence of candidate "go" and both matchers
    return the position 0; the scorer's denominator is 0 - 1/2, which is
    negative; [fuzzyMatch] returns the negative score -2, whatever the
    options; and no search for "g" returns the candidate "go". *)
Theorem matching_candidate_dropped :
  let query := js "g" in
  let candidate := js "go" in
  Subseq (stripWhitespace (toLowerCase query)) (toLowerCase candidate)
  /\ matches (fuzzyMatchByTokens query candidate) = [0]
  /\ matches (fuzzyMatchByWildcard query candidate) = [0]
  /\ fuzzyMatchScore candidate [0]
     = div (ofNat 1) (sub zero (div (ofNat 1) (ofNat 2)))
  /\ lt (sub zero (div (ofNat 1) (ofNat 2))) zero = true
  /\ (forall options,
        lt (score (fuzzyMatch query candidate options)) zero = true)
  /\ fuzzySearch query [candidate] noOptions = []
  /\ (forall sources options,
        Forall (fun r => rsource r <> candidate)
               (fuzzySearch query sources options)).
Proof.
  intros query candidate.
  split; [vm_compute; apply Subseq_take, Subseq_nil|].
  do 4 (split; [vm_compute; reflexivity|]).
  split; [|split; [vm_compute; reflexivity|]].
  - intros options. unfold query, candidate. now rewrite fuzzyMatch_g_go.
  - intros sources options. apply Forall_forall. intros r Hr E.
    apply fuzzySearch_In in Hr. destruct Hr as (i & s & _ & Hs & ->).
    simpl in E. subst s. unfold query, candidate in Hs.
    rewrite fuzzyMatch_g_go in Hs. vm_compute in Hs. discriminate.
Qed.

(* ================================================================= *)
(** ** Properties of [fuzzyMatch] *)

(** C6: [fuzzyMatch] runs the token matcher first; if its score is
    greater than 0 the result is that score multiplied by
    [tokenScoreBias] (10 when the option is absent) with the token
    matcher's positions unchanged; otherwise the result is the wildcard
    matcher's, unmodified. *)
Theorem fuzzyMatch_orchestration (query source : jsstring)
    (options : FuzzyMatchOptions) :
  let tokenMatch := fuzzyMatchByTokens query source in
  let bias := match tokenScoreBias options with
              | Some b => b
              | None => ofNat 10
              end in
  fuzzyMatch query source options
  = if gt (score tokenMatch) zero
    then {| score := mul (score tokenMatch) bias;
            matches := matches tokenMatch |}
    else fuzzyMatchByWildcard query source.
Proof. reflexivity. Qed.

(* ================================================================= *)
(** ** The token matcher steps back *)

(** C2 (the code breaks it): for query "abcc" and source "abCd" the
    score of [fuzzyMatch] is 10, greater than 0, and the matched
    positions are 0, 1, 2, 2, which is not a strictly increasing
    sequence. *)
Theorem token_positions_not_increasing :
  let r := fuzzyMatch (js "abcc") (js "abCd") noOptions in
  r = {| score := ofNat 10; matches := [0; 1; 2; 2] |}
  /\ gt (score r) zero = true
  /\ ~ StronglySorted Nat.lt (matches r).
Proof.
  intros r.
  assert (E : r = {| score := ofNat 10; matches := [0; 1; 2; 2] |})
    by (vm_compute; reflexivity).
  rewrite E. repeat split.
  simpl. intros H.
  repeat match goal with
         | H : StronglySorted _ (_ :: _) |- _ =>
             apply StronglySorted_inv in H; destruct H
         | H : Forall _ (_ :: _) |- _ =>
             apply Forall_inv in H
         end.
  lia.
Qed.

(** C3 (the code breaks it): an empty and a whitespace-only query give
    the score NaN, not 0, with no positions; and query "aabc", longer
    than source "abc", is matched, with score 24 and positions
    0, 0, 1, 2. *)
Theorem degenerate_inputs_not_no_match :
  fuzzyMatch (js "") (js "abc") noOptions = {| score := NaN; matches := [] |}
  /\ fuzzyMatch (js "  ") (js "abc") noOptions
     = {| score := NaN; matches := [] |}
  /\ fuzzyMatch (js "") (js "") noOptions = {| score := NaN; matches := [] |}
  /\ strictEq NaN zero = false
  /\ length (js "abc") < length (stripWhitespace (toLowerCase (js "aabc")))
  /\ fuzzyMatch (js "aabc") (js "abc") noOptions
     = {| score := ofNat 24; matches := [0; 0; 1; 2] |}
  /\ gt (ofNat 24) zero = true.
Proof.
  do 6 (split; [vm_compute; try reflexivity; lia|]).
  vm_compute; reflexivity.
Qed.

(** The wildcard matcher does not step back: its positions are strictly
    increasing. *)
Lemma fuzzyMatchByWildcard_increasing (query source : jsstring) :
  StronglySorted Nat.lt (matches (fuzzyMatchByWildcard query source)).
Proof.
  rewrite Wildcard.fuzzyMatchByWildcard_matches.
  destruct (wildcardLoop _ _ 0 []) as [ps|] eqn:W; [|constructor].
  apply Wildcard.wildcardLoop_greedy in W; [|apply LowerCase.query_fixed].
  now apply Wildcard.LeftmostGreedy_increasing in W.
Qed.

(** The wildcard matcher does not match a query that has more letters
    than the lower-cased source has units. *)
Lemma fuzzyMatchByWildcard_longer_query (query source : jsstring) :
  length (toLowerCase source) < length (stripWhitespace (toLowerCase query)) ->
  fuzzyMatchByWildcard query source = noMatch.
Proof.
  intros L. unfold fuzzyMatchByWildcard.
  destruct (wildcardLoop _ _ 0 []) as [ps|] eqn:W; trivial.
  exfalso.
  pose proof (Wildcard.wildcardLoop_length _ _ _ _ W) as Len. simpl in Len.
  apply Wildcard.wildcardLoop_greedy in W; [|apply LowerCase.query_fixed].
  pose proof (WildcardBounds.LeftmostGreedy_bounded _ _ _ _ W) as B.
  apply Wildcard.LeftmostGreedy_increasing in W. destruct W as [F Sd].
  pose proof (WildcardBounds.increasing_length F Sd B) as H.
  lia.
Qed.

(* ================================================================= *)
(** ** Lower-casing that changes the length of the source *)

(** C8 (the code breaks it): U+0130 lower-cases to two code units.  For
    query "a" and the source U+0130 "x" "a", of length 3, the token
    matcher fails and the wildcard matcher, which searches the
    lower-cased source, returns the position 3 with a positive score:
    there is no code unit at position 3 of the source. *)
Theorem position_not_in_source :
  let query := js "a" in
  let source := [304; 120; 97]%N in
  let r := fuzzyMatch query source noOptions in
  toLowerCase source = [105; 775; 120; 97]%N
  /\ fuzzyMatchByTokens query source = noMatch
  /\ gt (score r) zero = true
  /\ matches r = [3]
  /\ nth_error (toLowerCase source) 3 = Some 97%N
  /\ length source = 3
  /\ nth_error source 3 = None.
Proof.
  do 6 (split; [vm_compute; reflexivity|]).
  vm_compute; reflexivity.
Qed.

(** The positions are faithful for every source without U+0130, the
    one unit of [lowerUnit]'s table that lower-cases to two: when the
    score of [fuzzyMatch] is positive there is one position for each
    letter of the whitespace-stripped, lower-cased query, each position
    is an index into the source, and the unit there, lower-cased, is
    that letter. *)
Lemma positions_faithful (query source : jsstring) (options : FuzzyMatchOptions) :
  ~ In 304%N source ->
  gt (score (fuzzyMatch query source options)) zero = true ->
  Forall2 (PositionHolds source)
    (matches (fuzzyMatch query source options))
    (stripWhitespace (toLowerCase query)).
Proof.
  intros N. unfold fuzzyMatch.
  destruct (gt (score (fuzzyMatchByTokens query source)) zero) eqn:T.
  - intros _. simpl.
    destruct (Positions.fuzzyMatchByTokens_positions query source) as [E|F];
      trivial.
    rewrite E in T. discriminate.
  - unfold fuzzyMatchByWildcard.
    destruct (wildcardLoop _ _ 0 []) as [ps|] eqn:W; simpl.
    + intros _.
      apply Wildcard.wildcardLoop_greedy in W; [|apply LowerCase.query_fixed].
      now apply Positions.LeftmostGreedy_positions in W.
    + discriminate.
Qed.

(** A query with a letter does not match the empty source. *)
Lemma empty_source_no_match (query : jsstring) (options : FuzzyMatchOptions) :
  stripWhitespace (toLowerCase query) <> [] ->
  fuzzyMatch query [] options = noMatch.
Proof.
  intros N.
  assert (T : fuzzyMatchByTokens query [] = noMatch).
  { pose proof (TokenTermination.fuzzyMatchByTokens_loop query []) as H.
    rewrite TokenTermination.tokenLoop_eq in H.
    unfold tokenStart in H. simpl in H.
    destruct (stripWhitespace (toLowerCase query)); [congruence|].
    now injection H. }
  unfold fuzzyMatch. rewrite T. simpl.
  unfold fuzzyMatchByWildcard.
  pose proof (LowerCase.query_fixed query) as F.
  destruct (stripWhitespace (toLowerCase query)) as [|c q]; [congruence|].
  inversion F as [|? ? Fc _]; subst.
  now rewrite (Wildcard.wildcardLoop_cons _ _ _ Fc).
Qed.

(* ================================================================= *)
(** ** Properties of [fuzzyMatchByWildcard] *)

(** C7, as the code has it: for every query whose whitespace-stripped,
    lower-cased form is not empty, the wildcard matcher returns
    positions exactly when that form is a subsequence of the lower-cased
    source; and for every query, when it is such a subsequence, the
    returned positions are its leftmost-greedy embedding into the
    lower-cased source, hence strictly increasing. *)
Theorem wildcard_subsequence (query source : jsstring) :
  let q := stripWhitespace (toLowerCase query) in
  let sl := toLowerCase source in
  let ps := matches (fuzzyMatchByWildcard query source) in
  (q <> [] -> (ps <> [] <-> Subseq q sl))
  /\ (Subseq q sl -> LeftmostGreedy sl q 0 ps /\ StronglySorted Nat.lt ps).
Proof.
  intros q sl ps.
  pose proof (LowerCase.query_fixed query) as F. fold q in F.
  pose proof (Wildcard.wildcardLoop_Subseq sl F 0) as S. simpl in S.
  unfold ps. rewrite Wildcard.fuzzyMatchByWildcard_matches. fold q sl.
  destruct (wildcardLoop sl q 0 []) as [ms|] eqn:W.
  - assert (Sq : Subseq q sl) by (apply S; eauto).
    pose proof (Wildcard.wildcardLoop_greedy sl F 0 W) as G.
    split.
    + intros Nq. split; [trivial|]. intros _ E. subst ms.
      apply Wildcard.wildcardLoop_length in W. simpl in W.
      destruct q; [congruence | discriminate].
    + intros _. split; trivial.
      now apply Wildcard.LeftmostGreedy_increasing in G.
  - assert (Nq : ~ Subseq q sl).
    { intros Sq. apply S in Sq. destruct Sq; discriminate. }
    split; [|tauto]. intros _. split; [congruence | tauto].
Qed.

(** C7 as stated fails on the empty query: it is a subsequence of every
    source, and the wildcard matcher returns no positions for it. *)
Lemma wildcard_empty_query_counterexample :
  let query := js "" in
  let source := js "abc" in
  ~ (matches (fuzzyMatchByWildcard query source) <> []
     <-> Subseq (stripWhitespace (toLowerCase query)) (toLowerCase source)).
Proof.
  intros query source [_ H].
  apply H; [apply Subseq_nil | reflexivity].
Qed.

Lemma wildcard_subsequence_witness :
  let query := js "te xt" in
  let source := js "batchExtract" in
  let q := stripWhitespace (toLowerCase query) in
  let sl := toLowerCase source in
  let ps := matches (fuzzyMatchByWildcard query source) in
  q <> [] /\ ps = [2; 5; 6; 7] /\ Subseq q sl
  /\ LeftmostGreedy sl q 0 ps /\ StronglySorted Nat.lt ps.
Proof.
  intros query source q sl ps.
  destruct (wildcard_subsequence query source) as [H1 H2].
  fold q sl ps in H1, H2.
  assert (N : q <> []) by (vm_compute; discriminate).
  assert (E : ps = [2; 5; 6; 7]) by (vm_compute; reflexivity).
  assert (S : Subseq q sl).
  { apply (H1 N). rewrite E. discriminate. }
  split; [exact N|]. split; [exact E|]. split; [exact S|].
  exact (H2 S).
Defined.

(* ================================================================= *)
(** ** Properties of [fuzzySearch] *)

(** C4: for every query, candidate list and options, the list returned
    by [fuzzySearch] is sorted by score descending, and any two results
    with equal scores appear in ascending lexicographic order of their
    original source strings: every result is ranked before every result
    that follows it. *)
Theorem fuzzySearch_sorted (query : jsstring) (sources : list jsstring)
    (options : FuzzyMatchOptions) :
  StronglySorted RankedBefore (fuzzySearch query sources options).
Proof.
  unfold fuzzySearch.
  apply sortBy_sorted with (P := fun r => rscore r <> NaN).
  - exact Ranking.RankedBefore_trans.
  - intros x y _ _. apply Ranking.compareResults_before.
  - intros x y. apply Ranking.compareResults_after.
  - apply Forall_forall. intros r Hr.
    rewrite search_loop, app_nil_l, in_flat_map in Hr.
    destruct Hr as [e [_ Hr]]. apply searchStep_In in Hr.
    destruct Hr as [Hs ->]. simpl.
    now apply Ranking.positive_not_NaN.
Qed.

(** C10: every result returned by [fuzzySearch] is faithful to its
    candidate: its source is the candidate at its [sourceIndex] in the
    input list, and its score and matches are those of
    [fuzzyMatch query source options]. *)
Theorem fuzzySearch_faithful (query : jsstring) (sources : list jsstring)
    (options : FuzzyMatchOptions) (r : FuzzySearchResult) :
  In r (fuzzySearch query sources options) ->
  nth_error sources (rsourceIndex r) = Some (rsource r)
  /\ rscore r = score (fuzzyMatch query (rsource r) options)
  /\ rmatches r = matches (fuzzyMatch query (rsource r) options).
Proof.
  intros H. apply fuzzySearch_In in H.
  destruct H as (i & s & Hn & _ & ->). simpl. auto.
Qed.

Lemma fuzzySearch_faithful_witness :
  let query := js "b" in
  let sources := [js "no match"; js "ab"] in
  let r := {| rscore := ofNat 2; rmatches := [1];
              rsource := js "ab"; rsourceIndex := 1 |} in
  In r (fuzzySearch query sources noOptions)
  /\ nth_error sources (rsourceIndex r) = Some (rsource r)
  /\ rscore r = score (fuzzyMatch query (rsource r) noOptions)
  /\ rmatches r = matches (fuzzyMatch query (rsource r) noOptions).
Proof.
  intros query sources r.
  assert (H : In r (fuzzySearch query sources noOptions))
    by (vm_compute; left; reflexivity).
  split; [exact H|].
  exact (fuzzySearch_faithful query sources noOptions r H).
Defined.

(* ================================================================= *)
(** ** Further lemmas on the matchers *)

Module Matchers.

Import TokenTermination LowerCase IndexOf Wildcard.

(** Without positions the scorer divides 0 by 0. *)
Lemma fuzzyMatchScore_nil (source : jsstring) : fuzzyMatchScore source [] = NaN.
Proof.
  unfold fuzzyMatchScore. simpl length at 2. simpl fold_left.
  change (ofNat 0) with zero.
  now destruct (ofNat (length source)) as [[]|[]| |[] m e].
Qed.

(** The token matcher, on a query without letters. *)
Lemma fuzzyMatchByTokens_no_letters (query source : jsstring) :
  stripWhitespace (toLowerCase query) = [] ->
  fuzzyMatchByTokens query source = {| score := NaN; matches := [] |}.
Proof.
  intros E. pose proof (fuzzyMatchByTokens_loop query source) as H.
  rewrite tokenLoop_eq in H. unfold tokenStart in H. simpl in H.
  rewrite E in H. injection H as <-. now rewrite fuzzyMatchScore_nil.
Qed.

Lemma fuzzyMatchByWildcard_no_letters (query source : jsstring) :
  stripWhitespace (toLowerCase query) = [] ->
  fuzzyMatchByWildcard query source = {| score := NaN; matches := [] |}.
Proof.
  intros E. unfold fuzzyMatchByWildcard. rewrite E. simpl.
  now rewrite fuzzyMatchScore_nil.
Qed.



(** The result of the wildcard matcher is that of its loop. *)
Lemma fuzzyMatchByWildcard_cases (query source : jsstring) :
  (wildcardLoop (toLowerCase source) (stripWhitespace (toLowerCase query)) 0 []
   = None
   /\ fuzzyMatchByWildcard query source = noMatch)
  \/ (exists ps,
        wildcardLoop (toLowerCase source)
          (stripWhitespace (toLowerCase query)) 0 [] = Some ps
        /\ fuzzyMatchByWildcard query source
           = {| score := fuzzyMatchScore source ps; matches := ps |}).
Proof.
  unfold fuzzyMatchByWildcard.
  destruct (wildcardLoop _ _ 0 []) as [ps|]; [right; eauto | left; auto].
Qed.

(** The token loop on a queue that the source holds from the cursor
    on. *)
Lemma tokenLoop_run (source : jsstring) (fuel : nat) :
  forall st r,
    Forall2 (fun c u => toLowerCase [u] = [c]) (queue st)
      (firstn (length (queue st)) (skipn (cursor st) source)) ->
    tokenLoop source fuel st = Some r ->
    r = {| score := fuzzyMatchScore source
                      (matched st ++ seq (cursor st) (length (queue st)));
           matches := matched st ++ seq (cursor st) (length (queue st)) |}.
Proof.
  induction fuel as [|fuel IH]; intros st r F H;
    rewrite tokenLoop_eq in H;
    destruct (queue st) as [|letter rest] eqn:Q;
    try (injection H as <-; simpl; now rewrite app_nil_r);
    simpl in F;
    destruct (skipn (cursor st) source) as [|u tail] eqn:K;
    try (now inversion F);
    (assert (L : cursor st < length source)
      by (destruct (Nat.le_gt_cases (length source) (cursor st)) as [L|L];
          [rewrite skipn_all2 in K by exact L; discriminate | exact L]));
    destruct (Nat.leb_spec (length source) (cursor st)) as [L'|_];
    try lia; try discriminate.
  inversion F as [|? ? ? ? Hu F']; subst.
  assert (C : charAt source (cursor st) = [u]).
  { unfold charAt.
    replace (nth_error source (cursor st))
      with (nth_error (skipn (cursor st) source) 0)
      by (rewrite nth_error_skipn; f_equal; lia).
    now rewrite K. }
  unfold tokenStep in H. rewrite C, Hu in H.
  replace (eqStr [letter] [letter]) with true in H
    by (symmetry; now apply eqStr_eq).
  apply IH in H.
  - simpl in H. rewrite H, <- app_assoc. simpl.
    now replace (cursor st + 1) with (S (cursor st)) by lia.
  - simpl.
    replace (skipn (cursor st + 1) source) with tail; trivial.
    replace (cursor st + 1) with (1 + cursor st) by lia.
    now rewrite <- skipn_skipn, K.
Qed.


(** The token matcher returns all or nothing. *)
Lemma fuzzyMatchByTokens_cases (query source : jsstring) :
  fuzzyMatchByTokens query source = noMatch
  \/ (Forall2 (PositionHolds source)
        (matches (fuzzyMatchByTokens query source))
        (stripWhitespace (toLowerCase query))
      /\ score (fuzzyMatchByTokens query source)
         = fuzzyMatchScore source (matches (fuzzyMatchByTokens query source))).
Proof.
  pose proof (fuzzyMatchByTokens_loop query source) as H.
  generalize dependent (fuzzyMatchByTokens query source). intros r H.
  assert (G : forall fuel st r consumed,
             Forall2 (PositionHolds source) (matched st) consumed ->
             tokenLoop source fuel st = Some r ->
             r = noMatch
             \/ (Forall2 (PositionHolds source) (matches r) (consumed ++ queue st)
                 /\ score r = fuzzyMatchScore source (matches r))).
  { clear. induction fuel as [|fuel IH]; intros st r consumed F H;
      rewrite tokenLoop_eq in H;
      destruct (queue st) as [|letter rest] eqn:Q;
      try (injection H as <-; right; now rewrite app_nil_r);
      destruct (Nat.leb_spec (length source) (cursor st)) as [L|L];
      try (injection H as <-; now left); try discriminate.
    unfold tokenStep in H.
    destruct (eqStr [letter] _) eqn:E.
    - apply IH with (consumed := consumed ++ [letter]) in H.
      + simpl in H. now rewrite <- app_assoc in H.
      + simpl. apply Forall2_app; trivial.
        constructor; [|constructor]. split; trivial.
        apply LowerCase.eqStr_eq in E. now symmetry.
    - apply IH with (consumed := consumed) in H; trivial.
      simpl in H. now rewrite Q in H. }
  apply (G _ (tokenStart query) _ [] (Forall2_nil _) H).
Qed.

End Matchers.

(* ================================================================= *)
(** ** Quotients of numbers *)

Module Quotients.

Unset Implicit Arguments.

Import ExactIntegers.
Local Open Scope Z_scope.

Lemma digits_of_bounds (p : positive) (k : Z) :
  2 ^ (k - 1) <= Zpos p < 2 ^ k -> digits p = k.
Proof.
  intros [L U].
  pose proof (digits_lower p) as L'. pose proof (digits_upper p) as U'.
  pose proof (digits_pos p) as P.
  assert (K : 0 < k).
  { destruct (Z.lt_ge_cases 0 k) as [K|K]; trivial.
    destruct (Z.eq_dec k 0) as [->|N]; [simpl in U; lia|].
    rewrite (Z.pow_neg_r 2 k) in U by lia. lia. }
  destruct (Z.lt_trichotomy (digits p) k) as [H|[H|H]]; trivial.
  - assert (2 ^ digits p <= 2 ^ (k - 1)) by (apply Z.pow_le_mono_r; lia). lia.
  - assert (2 ^ k <= 2 ^ (digits p - 1)) by (apply Z.pow_le_mono_r; lia). lia.
Qed.

Lemma bounds_of_digits (p : positive) :
  2 ^ (digits p - 1) <= Zpos p < 2 ^ digits p.
Proof. split; [apply digits_lower | apply digits_upper]. Qed.

Lemma digits_le (p : positive) (k : Z) :
  0 <= k -> Zpos p < 2 ^ k -> digits p <= k.
Proof.
  intros K H. pose proof (digits_lower p) as L.
  destruct (Z.le_gt_cases (digits p) k) as [C|C]; trivial.
  assert (2 ^ k <= 2 ^ (digits p - 1)) by (apply Z.pow_le_mono_r; lia).
  lia.
Qed.

Lemma shr_1_m (mrs : shr_record) :
  0 <= shr_m mrs -> shr_m (shr_1 mrs) = Z.div2 (shr_m mrs).
Proof.
  destruct mrs as [m r s]. simpl.
  destruct m as [|[p|p|]|p]; simpl; trivial; lia.
Qed.

Lemma shr_record_of_loc_m (m : Z) (l : location) :
  shr_m (shr_record_of_loc m l) = m.
Proof. now destruct l as [|[]]. Qed.

Lemma round_nearest_even_cases (m : Z) (l : location) :
  round_nearest_even m l = m \/ round_nearest_even m l = m + 1.
Proof.
  destruct l as [|[]]; simpl; auto.
  destruct (Z.even m); auto.
Qed.

Lemma shr_iter_m (k : nat) (mrs : shr_record) :
  0 <= shr_m mrs ->
  shr_m (Nat.iter k shr_1 mrs) = shr_m mrs / 2 ^ Z.of_nat k.
Proof.
  intros P. induction k as [|k IH].
  - simpl. now rewrite Z.div_1_r.
  - change (Nat.iter (S k) shr_1 mrs) with (shr_1 (Nat.iter k shr_1 mrs)).
    assert (Q : 0 <= shr_m mrs / 2 ^ Z.of_nat k)
      by (apply Z.div_pos; [exact P | apply Z.pow_pos_nonneg; lia]).
    rewrite shr_1_m by (rewrite IH; exact Q).
    rewrite IH, Z.div2_div, Z.div_div by (try apply Z.pow_pos_nonneg; lia).
    rewrite Nat2Z.inj_succ, Z.pow_succ_r by lia.
    f_equal. lia.
Qed.

Lemma shiftl_value (c : positive) (k : nat) :
  Zpos (shiftl c k) = Zpos c * 2 ^ Z.of_nat k.
Proof.
  unfold shiftl. induction k as [|k IH].
  - simpl. lia.
  - change (Nat.iter (S k) xO c) with (xO (Nat.iter k xO c)).
    rewrite Nat2Z.inj_succ, Z.pow_succ_r, Pos2Z.inj_xO, IH by lia. lia.
Qed.

(** Bringing a mantissa of 53 or 54 digits to 53 digits. *)
Lemma shr_fexp_normal (m : positive) (e : Z) (l : location) :
  2 ^ 52 <= Zpos m < 2 ^ 54 -> -1074 <= e ->
  exists m' e',
    shr_m (fst (shr_fexp prec emax (Zpos m) e l)) = Zpos m'
    /\ snd (shr_fexp prec emax (Zpos m) e l) = e'
    /\ 2 ^ 52 <= Zpos m' < 2 ^ 53
    /\ e <= e' <= e + 1
    /\ Zpos m' * 2 ^ (e' - e) <= Zpos m <= Zpos m' * 2 ^ (e' - e) + 1.
Proof.
  intros [L U] E. unfold shr_fexp. cbn [Zdigits2]. fold (digits m).
  destruct (Z.lt_ge_cases (Zpos m) (2 ^ 53)) as [C|C].
  - rewrite (digits_of_bounds m 53) by (simpl Z.sub; lia).
    unfold fexp, emin, prec, emax.
    replace (Z.max (53 + e - 53) (3 - 1024 - 53) - e) with 0 by lia.
    cbn [shr fst snd]. rewrite shr_record_of_loc_m.
    exists m; exists e. rewrite Z.sub_diag. repeat split; lia.
  - rewrite (digits_of_bounds m 54) by (simpl Z.sub; lia).
    unfold fexp, emin, prec, emax.
    replace (Z.max (54 + e - 53) (3 - 1024 - 53) - e) with 1 by lia.
    cbn [shr fst snd iter_pos]. rewrite shr_1_m, shr_record_of_loc_m
      by (rewrite shr_record_of_loc_m; lia).
    assert (D : 2 ^ 52 <= Z.div2 (Zpos m) < 2 ^ 53).
    { rewrite Z.div2_div. split.
      - apply Z.div_le_lower_bound; lia.
      - apply Z.div_lt_upper_bound; lia. }
    pose proof (Z.mul_div_le (Zpos m) 2) as V.
    pose proof (Z.mul_succ_div_gt (Zpos m) 2) as V'.
    rewrite <- Z.div2_div in V, V'.
    destruct (Z.div2 (Zpos m)) as [|m'|m'] eqn:Q; try lia.
    exists m', (e + 1). replace (e + 1 - e) with 1 by lia.
    repeat split; lia.
Qed.

(** Bringing a mantissa of 53 digits or more to 53 digits. *)
Lemma shr_fexp_digits (m : positive) (e : Z) (l : location) :
  53 <= digits m -> -1074 <= digits m + e - 53 ->
  exists m',
    shr_m (fst (shr_fexp prec emax (Zpos m) e l)) = Zpos m'
    /\ snd (shr_fexp prec emax (Zpos m) e l) = e + digits m - 53
    /\ 2 ^ 52 <= Zpos m' < 2 ^ 53
    /\ Zpos m' * 2 ^ (digits m - 53) <= Zpos m
       < (Zpos m' + 1) * 2 ^ (digits m - 53).
Proof.
  intros D E. unfold shr_fexp. cbn [Zdigits2]. fold (digits m).
  unfold fexp, emin, prec, emax.
  replace (Z.max (digits m + e - 53) (3 - 1024 - 53) - e)
    with (digits m - 53) by lia.
  pose proof (bounds_of_digits m) as [L U].
  destruct (digits m - 53) as [|n|n] eqn:N; try lia.
  - cbn [shr fst snd]. rewrite shr_record_of_loc_m. exists m.
    replace (digits m) with 53 in * by lia. simpl Z.sub in *.
    repeat split; lia.
  - cbn [shr fst snd].
    rewrite iter_pos_nat, shr_iter_m by (rewrite shr_record_of_loc_m; lia).
    rewrite shr_record_of_loc_m, positive_nat_Z.
    assert (P : 0 < 2 ^ Zpos n) by (apply Z.pow_pos_nonneg; lia).
    assert (Q : 2 ^ 52 <= Zpos m / 2 ^ Zpos n < 2 ^ 53).
    { replace (digits m - 1) with (52 + Zpos n) in L by lia.
      replace (digits m) with (53 + Zpos n) in U by lia.
      rewrite Z.pow_add_r in L, U by lia.
      split; [apply Z.div_le_lower_bound | apply Z.div_lt_upper_bound]; lia. }
    pose proof (Z.mul_div_le (Zpos m) (2 ^ Zpos n) P) as V.
    pose proof (Z.mul_succ_div_gt (Zpos m) (2 ^ Zpos n) P) as V'.
    destruct (Zpos m / 2 ^ Zpos n) as [|m'|m'] eqn:Q'; try lia.
    exists m'. repeat split; lia.
Qed.

(** Rounding a positive mantissa of 53 digits or more, in the range of
    the normal numbers, gives a finite number with a mantissa of 53
    digits, less than two units of the last digit away. *)
Lemma binary_round_aux_digits (s : bool) (m : positive) (e : Z) (l : location) :
  53 <= digits m -> -1074 <= digits m + e - 53 <= 970 ->
  exists m' e',
    binary_round_aux prec emax s (Zpos m) e l = S754_finite s m' e'
    /\ digits m' = 53
    /\ digits m + e - 53 <= e' <= digits m + e - 52
    /\ Zpos m' * 2 ^ (e' - e) <= Zpos m + 2 ^ (digits m - 53)
    /\ Zpos m < Zpos m' * 2 ^ (e' - e) + 2 * 2 ^ (digits m - 53).
Proof.
  intros D E. unfold binary_round_aux.
  destruct (shr_fexp_digits m e l D) as (m1 & H1 & H2 & B1 & V1); [lia|].
  destruct (shr_fexp prec emax (Zpos m) e l) as [mrs1 e1] eqn:S1.
  simpl in H1, H2. subst e1.
  assert (R : exists m1',
             round_nearest_even (shr_m mrs1) (loc_of_shr_record mrs1) = Zpos m1'
             /\ Zpos m1 <= Zpos m1' <= Zpos m1 + 1).
  { destruct (round_nearest_even_cases (shr_m mrs1) (loc_of_shr_record mrs1))
      as [R|R]; rewrite R, H1; [exists m1 | exists (m1 + 1)%positive];
      split; lia. }
  destruct R as (m1' & -> & B1').
  destruct (shr_fexp_normal m1' (e + digits m - 53) loc_Exact)
    as (m2 & e2 & K1 & K2 & B2 & E2 & V2); [lia | lia |].
  destruct (shr_fexp prec emax (Zpos m1') (e + digits m - 53) loc_Exact)
    as [mrs2 e2'] eqn:S2.
  simpl in K1, K2. subst e2'. rewrite K1.
  unfold emax, prec.
  destruct (Z.leb_spec e2 (1024 - 53)); [|lia].
  exists m2; exists e2.
  split; [reflexivity|]. split; [apply digits_of_bounds; simpl Z.sub; lia|].
  split; [lia|].
  replace (e2 - e) with ((e2 - (e + digits m - 53)) + (digits m - 53)) by lia.
  rewrite Z.pow_add_r by lia.
  assert (P : 0 < 2 ^ (digits m - 53)) by (apply Z.pow_pos_nonneg; lia).
  rewrite Z.mul_assoc. nia.
Qed.

(** Rounding a positive mantissa of any number of digits, in the range
    of the normal numbers. *)
Lemma binary_round_digits (s : bool) (m : positive) (e : Z) :
  -1074 <= digits m + e - 53 <= 970 ->
  exists m' e',
    binary_round prec emax s m e = S754_finite s m' e'
    /\ digits m' = 53
    /\ digits m + e - 53 <= e' <= digits m + e - 52.
Proof.
  intros E. unfold binary_round. fold (digits m).
  unfold fexp, emin, prec, emax.
  replace (Z.max (digits m + e - 53) (3 - 1024 - 53))
    with (digits m + e - 53) by lia.
  unfold shl_align.
  destruct (digits m + e - 53 - e) as [|n|n] eqn:N.
  - destruct (binary_round_aux_digits s m e loc_Exact)
      as (m' & e' & H & D' & W & _); [lia | lia |].
    exists m'; exists e'. auto.
  - destruct (binary_round_aux_digits s m e loc_Exact)
      as (m' & e' & H & D' & W & _); [lia | lia |].
    exists m'; exists e'. auto.
  - rewrite Pos_iter_shiftl.
    destruct (binary_round_aux_digits s (shiftl m (Pos.to_nat n))
                (digits m + e - 53) loc_Exact)
      as (m' & e' & H & D' & W & _);
      try (rewrite digits_shiftl, positive_nat_Z; lia).
    exists m'; exists e'. rewrite digits_shiftl, positive_nat_Z in W.
    split; [exact H|]. split; [exact D'|]. lia.
Qed.

(** The quotient of two finite numbers with mantissas of 53 digits is a
    finite number with the sign of the quotient, when its exponent is in
    the range of the normal numbers; its mantissa is less than five
    units away from the quotient of the mantissas. *)
Lemma div_finite (s1 s2 : bool) (m1 m2 : positive) (e1 e2 : Z) :
  digits m1 = 53 -> digits m2 = 53 -> -1021 <= e1 - e2 <= 1022 ->
  exists m3 e3,
    div (S754_finite s1 m1 e1) (S754_finite s2 m2 e2)
    = S754_finite (xorb s1 s2) m3 e3
    /\ digits m3 = 53 /\ e1 - e2 - 53 <= e3 <= e1 - e2 - 51
    /\ Zpos m3 * 2 ^ (e3 - (e1 - e2 - 53)) * Zpos m2
       <= Zpos m1 * 2 ^ 53 + 2 * Zpos m2
    /\ Zpos m1 * 2 ^ 53
       < Zpos m3 * 2 ^ (e3 - (e1 - e2 - 53)) * Zpos m2 + 5 * Zpos m2.
Proof.
  intros D1 D2 E.
  pose proof (bounds_of_digits m1) as B1. pose proof (bounds_of_digits m2) as B2.
  rewrite D1 in B1. rewrite D2 in B2. simpl Z.sub in B1, B2.
  unfold div, SFdiv, SFdiv_core_binary. cbn [Zdigits2].
  fold (digits m1) (digits m2). rewrite D1, D2.
  replace (53 + e1 - (53 + e2)) with (e1 - e2) by lia.
  assert (F : Z.min (fexp prec emax (e1 - e2)) (e1 - e2) = e1 - e2 - 53)
    by (unfold fexp, emin, prec, emax; lia).
  rewrite F.
  replace (e1 - e2 - (e1 - e2 - 53)) with 53 by lia.
  rewrite Z.shiftl_mul_pow2 by lia.
  pose proof (Z_div_mod (Zpos m1 * 2 ^ 53) (Zpos m2)) as DM.
  destruct (Z.div_eucl (Zpos m1 * 2 ^ 53) (Zpos m2)) as [q r].
  destruct DM as [EQ R]; [lia|].
  assert (Q : 2 ^ 52 <= q < 2 ^ 54) by nia.
  destruct q as [|q|q]; try lia.
  assert (Dq : digits q = 53 \/ digits q = 54).
  { pose proof (bounds_of_digits q) as [Lq Uq].
    destruct (Z.le_gt_cases (digits q) 52) as [K|K];
      [assert (2 ^ digits q <= 2 ^ 52) by (apply Z.pow_le_mono_r; lia); lia|].
    destruct (Z.le_gt_cases 55 (digits q)) as [K'|K'];
      [assert (2 ^ 54 <= 2 ^ (digits q - 1)) by (apply Z.pow_le_mono_r; lia);
       lia|].
    lia. }
  destruct (binary_round_aux_digits (xorb s1 s2) q (e1 - e2 - 53)
              (new_location (Zpos m2) r))
    as (m3 & e3 & H & D3 & E3 & V3 & V3'); [lia | lia |].
  exists m3; exists e3.
  split; [exact H|]. split; [exact D3|]. split; [lia|].
  assert (P : 1 <= 2 ^ (digits q - 53) <= 2)
    by (destruct Dq as [-> | ->]; simpl; lia).
  set (X := Zpos m3 * 2 ^ (e3 - (e1 - e2 - 53))) in *.
  rewrite EQ. split; nia.
Qed.

(** The difference of two positive finite numbers with mantissas of 53
    digits is 0 or a finite number with a mantissa of 53 digits and the
    sign of the difference of the aligned mantissas. *)
Lemma sub_finite (mx my : positive) (ex ey : Z) :
  digits mx = 53 -> digits my = 53 ->
  -1000 <= ex <= 900 -> -1000 <= ey <= 900 ->
  let ez := Z.min ex ey in
  let M := Zpos mx * 2 ^ (ex - ez) - Zpos my * 2 ^ (ey - ez) in
  (M = 0
   /\ sub (S754_finite false mx ex) (S754_finite false my ey) = S754_zero false)
  \/ (M <> 0
      /\ exists m e,
        sub (S754_finite false mx ex) (S754_finite false my ey)
        = S754_finite (M <? 0) m e
        /\ digits m = 53 /\ ez - 52 <= e <= Z.max ex ey + 1).
Proof.
  intros Dx Dy Ex Ey ez M.
  unfold sub, SFsub. cbn [cond_Zopp]. fold ez.
  rewrite !shl_align_shiftl by (unfold ez; lia).
  pose proof (shiftl_value mx (Z.to_nat (ex - ez))) as Vx.
  pose proof (shiftl_value my (Z.to_nat (ey - ez))) as Vy.
  rewrite Z2Nat.id in Vx, Vy by (unfold ez; lia).
  pose proof (digits_shiftl mx (Z.to_nat (ex - ez))) as Sx.
  pose proof (digits_shiftl my (Z.to_nat (ey - ez))) as Sy.
  rewrite Z2Nat.id in Sx, Sy by (unfold ez; lia).
  set (ax := shiftl mx (Z.to_nat (ex - ez))) in *.
  set (ay := shiftl my (Z.to_nat (ey - ez))) in *.
  assert (EM : M = Zpos ax - Zpos ay) by (unfold M; lia).
  rewrite EM.
  destruct (Zpos ax - Zpos ay) as [|p|p] eqn:P.
  - left. split; reflexivity.
  - right. split; [lia|]. cbn [binary_normalize].
    assert (Dp : digits p <= digits ax) by (apply digits_mono; lia).
    pose proof (digits_pos p) as Pp.
    destruct (binary_round_digits false p ez) as (m & e & H & D & W);
      [unfold ez in *; lia|].
    exists m; exists e. split; [exact H|]. split; [exact D|].
    unfold ez in *; lia.
  - right. split; [lia|]. cbn [binary_normalize].
    assert (Dp : digits p <= digits ay) by (apply digits_mono; lia).
    pose proof (digits_pos p) as Pp.
    destruct (binary_round_digits true p ez) as (m & e & H & D & W);
      [unfold ez in *; lia|].
    exists m; exists e. split; [exact H|]. split; [exact D|].
    unfold ez in *; lia.
Qed.


End Quotients.

Set Implicit Arguments.

(* ================================================================= *)
(** ** The sign of a score *)

Module Scores.

Unset Implicit Arguments.

Import ExactIntegers Quotients.
Local Open Scope Z_scope.

(** The number of an integer from 1 to 2^53 - 1. *)
Lemma ofNat_canonical (n : nat) :
  (0 < n)%nat -> Z.of_nat n < 2 ^ 53 ->
  exists c, Zpos c = Z.of_nat n /\ ofNat n = canonical c.
Proof.
  intros P B. exists (Z.to_pos (Z.of_nat n)).
  assert (C : Zpos (Z.to_pos (Z.of_nat n)) = Z.of_nat n)
    by (rewrite Z2Pos.id; lia).
  split; [exact C|].
  unfold ofNat. rewrite <- C. apply ofZ_canonical. lia.
Qed.

(** The mantissa of [canonical c]. *)
Lemma canonical_mantissa (c : positive) :
  Zpos c < 2 ^ 53 ->
  1 <= digits c <= 53
  /\ digits (shiftl c (Z.to_nat (53 - digits c))) = 53
  /\ Zpos (shiftl c (Z.to_nat (53 - digits c))) = Zpos c * 2 ^ (53 - digits c).
Proof.
  intros B. pose proof (digits_pos c) as P.
  assert (D : digits c <= 53) by now apply digits_le_53.
  split; [lia|]. split.
  - rewrite digits_shiftl. lia.
  - rewrite shiftl_value, Z2Nat.id by lia. reflexivity.
Qed.

(** The sum of the positions, when it is below 2^53, is exact. *)
Lemma fuzzyMatchScore_exact (source : jsstring) (ps : list nat) :
  Z.of_nat (list_sum ps) < 2 ^ 53 ->
  fuzzyMatchScore source ps
  = div (ofNat (length ps))
        (sub (ofNat (list_sum ps))
             (div (ofNat (length ps)) (ofNat (length source)))).
Proof.
  intros B. unfold fuzzyMatchScore.
  change zero with (ofNat 0).
  now rewrite (sum_exact ps 0 B).
Qed.

(** Rounding a mantissa of at most 53 digits followed by zero bits gives
    the number of the mantissa. *)
Lemma binary_round_aux_exact (c : positive) (k : nat) :
  digits c <= 53 -> 53 <= digits c + Z.of_nat k <= 54 ->
  binary_round_aux prec emax false (Zpos (shiftl c k)) (- Z.of_nat k) loc_Exact
  = canonical c.
Proof.
  intros D K. pose proof (digits_pos c) as P. unfold canonical.
  apply binary_round_aux_from; [| rewrite digits_shiftl; lia | lia].
  unfold shr_fexp. cbn [Zdigits2 shr_record_of_loc].
  fold (digits (shiftl c k)). rewrite digits_shiftl.
  unfold fexp, emin, prec, emax.
  replace (Z.max (digits c + Z.of_nat k + - Z.of_nat k - 53) (3 - 1024 - 53)
           - - Z.of_nat k)
    with (digits c + Z.of_nat k - 53) by lia.
  rewrite (shr_exact c k) by lia.
  f_equal; [|lia]. do 3 f_equal. lia.
Qed.

(** A quotient of mantissas without remainder is not rounded. *)
Lemma div_finite_exact (m1 m2 q : positive) (e1 e2 : Z) :
  digits m1 = 53 -> digits m2 = 53 -> -1021 <= e1 - e2 ->
  Zpos m1 * 2 ^ 53 = Zpos m2 * Zpos q ->
  div (S754_finite false m1 e1) (S754_finite false m2 e2)
  = binary_round_aux prec emax false (Zpos q) (e1 - e2 - 53) loc_Exact.
Proof.
  intros D1 D2 E EQ.
  unfold div, SFdiv, SFdiv_core_binary. cbn [Zdigits2 xorb].
  fold (digits m1) (digits m2). rewrite D1, D2.
  replace (53 + e1 - (53 + e2)) with (e1 - e2) by lia.
  assert (F : Z.min (fexp prec emax (e1 - e2)) (e1 - e2) = e1 - e2 - 53)
    by (unfold fexp, emin, prec, emax; lia).
  rewrite F.
  replace (e1 - e2 - (e1 - e2 - 53)) with 53 by lia.
  rewrite Z.shiftl_mul_pow2 by lia.
  pose proof (Z_div_mod (Zpos m1 * 2 ^ 53) (Zpos m2)) as DM.
  destruct (Z.div_eucl (Zpos m1 * 2 ^ 53) (Zpos m2)) as [q' r].
  destruct DM as [EQ' R]; [lia|].
  assert (Q : q' = Zpos q /\ r = 0).
  { assert (K : Zpos m2 * (Zpos q - q') = r) by lia.
    destruct (Z.lt_trichotomy (Zpos q) q') as [C|[C|C]]; [nia | | nia].
    subst q'. lia. }
  destruct Q as [-> ->].
  unfold new_location, new_location_even, new_location_odd.
  now destruct (Z.even (Zpos m2)).
Qed.

(** The quotient of two integers below 2^53, when it is an integer, is
    exact. *)
Lemma div_exact (a l s : positive) :
  Zpos a = Zpos s * Zpos l -> Zpos a < 2 ^ 53 ->
  div (canonical a) (canonical l) = canonical s.
Proof.
  intros E B.
  assert (Bl : Zpos l < 2 ^ 53) by nia.
  assert (Bs : Zpos s < 2 ^ 53) by nia.
  destruct (canonical_mantissa a B) as (Da & Ma & Va).
  destruct (canonical_mantissa l Bl) as (Dl & Ml & Vl).
  destruct (canonical_mantissa s Bs) as (Ds & _ & _).
  pose proof (bounds_of_digits a) as [La Ua].
  pose proof (bounds_of_digits l) as [Ll Ul].
  pose proof (bounds_of_digits s) as [Ls Us].
  assert (Dsl : digits s + digits l - 1 <= digits a <= digits s + digits l).
  { split.
    - destruct (Z.le_gt_cases (digits s + digits l - 1) (digits a)) as [K|K];
        trivial.
      assert (2 ^ digits a <= 2 ^ (digits s - 1 + (digits l - 1)))
        by (apply Z.pow_le_mono_r; lia).
      rewrite Z.pow_add_r in * by lia. nia.
    - destruct (Z.le_gt_cases (digits a) (digits s + digits l)) as [K|K];
        trivial.
      assert (2 ^ (digits s + digits l) <= 2 ^ (digits a - 1))
        by (apply Z.pow_le_mono_r; lia).
      rewrite Z.pow_add_r in * by lia. nia. }
  set (k := 53 - digits a + digits l).
  assert (V : Zpos (shiftl a (Z.to_nat (53 - digits a))) * 2 ^ 53
              = Zpos (shiftl l (Z.to_nat (53 - digits l)))
                * Zpos (shiftl s (Z.to_nat k))).
  { rewrite Va, Vl, shiftl_value, Z2Nat.id, E by (unfold k; lia).
    replace 53 with (53 - digits l + digits l) at 2 by lia.
    unfold k. rewrite !Z.pow_add_r by lia. ring. }
  unfold canonical at 1 2.
  rewrite (div_finite_exact _ _ (shiftl s (Z.to_nat k)) _ _ Ma Ml) by (trivial; lia).
  replace (digits a - 53 - (digits l - 53) - 53) with (- Z.of_nat (Z.to_nat k))
    by (unfold k; lia).
  apply binary_round_aux_exact; unfold k; lia.
Qed.


(** The arithmetic of the two cases of a denominator that is not 0:
    [X] is the rounded quotient of the mantissas, [W], [pa], [pb], [c]
    and [d] are powers of 2. *)
Lemma sign_pos (n L S pa pb X W c d : Z) :
  0 < n -> 0 < L -> n < S * L -> 8 <= pa -> 1 <= pb -> L * pb < d ->
  0 <= X -> 0 < W -> 0 < c -> 0 < d ->
  X * (L * pb) <= n * pa * d + 2 * (L * pb) ->
  W * pa = pb * c ->
  X * W < S * (d * c).
Proof.
  intros Hn HL HS Hpa Hpb HLd HX HW Hc Hd HU HW2.
  destruct (Z.lt_ge_cases (X * W) (S * (d * c))) as [K|K]; trivial.
  exfalso.
  assert (E1 : S * (d * c) * (L * pb * pa) <= X * W * (L * pb * pa))
    by (apply Z.mul_le_mono_nonneg_r; nia).
  assert (E2 : X * W * (L * pb * pa) = (X * (L * pb)) * (pb * c))
    by (rewrite <- HW2; ring).
  assert (E3 : (X * (L * pb)) * (pb * c)
               <= (n * pa * d + 2 * (L * pb)) * (pb * c))
    by (apply Z.mul_le_mono_nonneg_r; nia).
  assert (E4 : (S * L * d * pa) * (pb * c)
               <= (n * pa * d + 2 * (L * pb)) * (pb * c)).
  { replace ((S * L * d * pa) * (pb * c))
      with (S * (d * c) * (L * pb * pa)) by ring.
    lia. }
  assert (E5 : S * L * d * pa <= n * pa * d + 2 * (L * pb))
    by (apply Z.mul_le_mono_pos_r in E4; nia).
  assert (E6 : (S * L - n) * (pa * d) <= 2 * (L * pb))
    by (ring_simplify; ring_simplify in E5; lia).
  assert (E7 : 1 * (pa * d) <= (S * L - n) * (pa * d))
    by (apply Z.mul_le_mono_nonneg_r; nia).
  nia.
Qed.

Lemma sign_neg (n L S pa pb X W c d : Z) :
  0 < n -> 0 < L -> 0 <= S -> S * L < n -> 8 <= pa -> 1 <= pb ->
  L * pb < d -> 0 <= X -> 0 < W -> 0 < c -> 0 < d ->
  n * pa * d < X * (L * pb) + 5 * (L * pb) ->
  W * pa = pb * c ->
  S * (d * c) < X * W.
Proof.
  intros Hn HL HS0 HS Hpa Hpb HLd HX HW Hc Hd HU HW2.
  destruct (Z.lt_ge_cases (S * (d * c)) (X * W)) as [K|K]; trivial.
  exfalso.
  assert (E1 : X * W * (L * pb * pa) <= S * (d * c) * (L * pb * pa))
    by (apply Z.mul_le_mono_nonneg_r; nia).
  assert (E2 : X * W * (L * pb * pa) = (X * (L * pb)) * (pb * c))
    by (rewrite <- HW2; ring).
  assert (E3 : (n * pa * d - 5 * (L * pb)) * (pb * c)
               < (X * (L * pb)) * (pb * c))
    by (apply Z.mul_lt_mono_pos_r; nia).
  assert (E4 : (n * pa * d - 5 * (L * pb)) * (pb * c)
               < (S * L * d * pa) * (pb * c)).
  { replace ((S * L * d * pa) * (pb * c))
      with (S * (d * c) * (L * pb * pa)) by ring.
    lia. }
  assert (E5 : n * pa * d - 5 * (L * pb) < S * L * d * pa)
    by (apply Z.mul_lt_mono_pos_r in E4; nia).
  assert (E6 : (n - S * L) * (pa * d) < 5 * (L * pb))
    by (ring_simplify; ring_simplify in E5; lia).
  assert (E7 : 1 * (pa * d) <= (n - S * L) * (pa * d))
    by (apply Z.mul_le_mono_nonneg_r; nia).
  nia.
Qed.

(** The aligned mantissas of S and of the rounded quotient n / L, both
    multiplied by one power of 2. *)
Lemma aligned (S ms mq es eq e' : Z) :
  ms = S * 2 ^ (- es) -> -200 <= e' <= eq -> -200 <= es <= 0 -> eq <= 0 ->
  let ez := Z.min es eq in
  (ms * 2 ^ (es - ez) - mq * 2 ^ (eq - ez)) * 2 ^ (ez + 200)
  = S * 2 ^ 200 - mq * 2 ^ (eq - e') * 2 ^ (e' + 200).
Proof.
  intros -> E' Es Eq ez.
  rewrite Z.mul_sub_distr_r, <- !Z.mul_assoc, <- !Z.pow_add_r
    by (unfold ez; lia).
  replace (- es + (es - ez + (ez + 200))) with 200 by lia.
  replace (eq - ez + (ez + 200)) with (eq - e' + (e' + 200)) by lia.
  reflexivity.
Qed.

(** The sign of a score: that of S * L - n, for n positions (at least
    one, less than 2^50) that add up to S in a source of L units. *)
Lemma fuzzyMatchScore_compare (source : jsstring) (ps : list nat) :
  (0 < length ps)%nat -> Z.of_nat (length ps) < 2 ^ 50 ->
  (0 < length source)%nat -> Z.of_nat (length source) < 2 ^ 53 ->
  Z.of_nat (list_sum ps) < 2 ^ 53 ->
  match (length ps ?= list_sum ps * length source)%nat with
  | Lt => exists m e,
            fuzzyMatchScore source ps = S754_finite false m e
            /\ digits m = 53 /\ -400 <= e <= 400
  | Eq => fuzzyMatchScore source ps = Infinity
  | Gt => exists m e, fuzzyMatchScore source ps = S754_finite true m e
  end.
Proof.
  intros Pn Bn Pl Bl Bs. rewrite (fuzzyMatchScore_exact source ps Bs).
  destruct (ofNat_canonical (length ps)) as (cn & Cn & ->); [lia | lia |].
  destruct (ofNat_canonical (length source)) as (cl & Cl & ->); [lia | lia |].
  destruct (canonical_mantissa cn) as (Dn & Mn & Vn); [lia|].
  destruct (canonical_mantissa cl) as (Dl & Ml & Vl); [lia|].
  assert (Dn' : digits cn <= 50) by (apply digits_le; lia).
  destruct (list_sum ps) as [|k] eqn:K.
  - simpl Nat.mul.
    destruct (Nat.compare_spec (length ps) 0) as [C|C|C]; try lia.
    change (ofNat 0) with zero. unfold canonical.
    destruct (div_finite false false _ _ (digits cn - 53) (digits cl - 53) Mn Ml)
      as (mq & eq & -> & Dq & Eq & _); [lia|].
    cbn [xorb sub SFsub zero negb].
    destruct (div_finite false true _ mq (digits cn - 53) eq Mn Dq)
      as (m & e & -> & _); [lia|].
    exists m; exists e. reflexivity.
  - destruct (ofNat_canonical (S k)) as (cs & Cs & ->); [lia | lia |].
    destruct (canonical_mantissa cs) as (Ds & Ms & Vs); [lia|].
    destruct (Nat.compare_spec (length ps) (S k * length source)) as [C|C|C].
    + rewrite (div_exact cn cl cs) by (rewrite ?Cn, ?Cs, ?Cl; lia).
      unfold canonical.
      destruct (sub_finite _ _ (digits cs - 53) (digits cs - 53) Ms Ms)
        as [[_ ->]|[M _]]; [lia | lia | reflexivity | lia].
    + unfold canonical.
      set (mn := shiftl cn (Z.to_nat (53 - digits cn))) in *.
      set (ml := shiftl cl (Z.to_nat (53 - digits cl))) in *.
      set (ms := shiftl cs (Z.to_nat (53 - digits cs))) in *.
      destruct (div_finite false false mn ml (digits cn - 53) (digits cl - 53)
                  Mn Ml) as (mq & eq & -> & Dq & Eq & Vup & _); [lia|].
      cbn [xorb].
      set (e' := digits cn - 53 - (digits cl - 53) - 53) in *.
      pose proof (bounds_of_digits ml) as Bml. rewrite Ml in Bml.
      assert (P : Zpos mq * 2 ^ (eq - e') * 2 ^ (e' + 200)
                  < Z.of_nat (S k) * 2 ^ 200).
      { change (2 ^ 200) with (2 ^ 53 * 2 ^ 147).
        apply (sign_pos (Z.of_nat (length ps)) (Z.of_nat (length source)) _
                 (2 ^ (53 - digits cn)) (2 ^ (53 - digits cl))); try lia.
        - change 8 with (2 ^ 3). apply Z.pow_le_mono_r; lia.
        - rewrite <- !Z.pow_add_r by (unfold e'; lia).
          f_equal. unfold e'. lia. }
      assert (T : 0 < 2 ^ (Z.min (digits cs - 53) eq + 200))
        by (apply Z.pow_pos_nonneg; unfold e' in *; lia).
      assert (A : (Zpos ms * 2 ^ (digits cs - 53 - Z.min (digits cs - 53) eq)
                   - Zpos mq * 2 ^ (eq - Z.min (digits cs - 53) eq))
                  * 2 ^ (Z.min (digits cs - 53) eq + 200)
                  = Z.of_nat (S k) * 2 ^ 200
                    - Zpos mq * 2 ^ (eq - e') * 2 ^ (e' + 200)).
      { apply aligned; unfold e' in *; try lia.
        rewrite Vs, Cs. f_equal. f_equal. lia. }
      destruct (sub_finite ms mq (digits cs - 53) eq Ms Dq)
        as [[M _]|(_ & md & ed & -> & Dd & Ed)];
        try (unfold e' in *; lia).
      { rewrite M in A. lia. }
      replace (Zpos ms * 2 ^ (digits cs - 53 - Z.min (digits cs - 53) eq)
               - Zpos mq * 2 ^ (eq - Z.min (digits cs - 53) eq) <? 0)
        with false by (symmetry; apply Z.ltb_ge; nia).
      destruct (div_finite false false mn md (digits cn - 53) ed Mn Dd)
        as (m & e & -> & D & E & _); [unfold e' in *; lia|].
      exists m; exists e. split; [reflexivity|]. split; [exact D|].
      unfold e' in *; lia.
    + unfold canonical.
      set (mn := shiftl cn (Z.to_nat (53 - digits cn))) in *.
      set (ml := shiftl cl (Z.to_nat (53 - digits cl))) in *.
      set (ms := shiftl cs (Z.to_nat (53 - digits cs))) in *.
      destruct (div_finite false false mn ml (digits cn - 53) (digits cl - 53)
                  Mn Ml) as (mq & eq & -> & Dq & Eq & _ & Vlo); [lia|].
      cbn [xorb].
      set (e' := digits cn - 53 - (digits cl - 53) - 53) in *.
      pose proof (bounds_of_digits ml) as Bml. rewrite Ml in Bml.
      assert (P : Z.of_nat (S k) * 2 ^ 200
                  < Zpos mq * 2 ^ (eq - e') * 2 ^ (e' + 200)).
      { change (2 ^ 200) with (2 ^ 53 * 2 ^ 147).
        apply (sign_neg (Z.of_nat (length ps)) (Z.of_nat (length source)) _
                 (2 ^ (53 - digits cn)) (2 ^ (53 - digits cl))); try lia.
        - change 8 with (2 ^ 3). apply Z.pow_le_mono_r; lia.
        - rewrite <- !Z.pow_add_r by (unfold e'; lia).
          f_equal. unfold e'. lia. }
      assert (T : 0 < 2 ^ (Z.min (digits cs - 53) eq + 200))
        by (apply Z.pow_pos_nonneg; unfold e' in *; lia).
      assert (A : (Zpos ms * 2 ^ (digits cs - 53 - Z.min (digits cs - 53) eq)
                   - Zpos mq * 2 ^ (eq - Z.min (digits cs - 53) eq))
                  * 2 ^ (Z.min (digits cs - 53) eq + 200)
                  = Z.of_nat (S k) * 2 ^ 200
                    - Zpos mq * 2 ^ (eq - e') * 2 ^ (e' + 200)).
      { apply aligned; unfold e' in *; try lia.
        rewrite Vs, Cs. f_equal. f_equal. lia. }
      destruct (sub_finite ms mq (digits cs - 53) eq Ms Dq)
        as [[M _]|(_ & md & ed & -> & Dd & Ed)];
        try (unfold e' in *; lia).
      { rewrite M in A. lia. }
      replace (Zpos ms * 2 ^ (digits cs - 53 - Z.min (digits cs - 53) eq)
               - Zpos mq * 2 ^ (eq - Z.min (digits cs - 53) eq) <? 0)
        with true by (symmetry; apply Z.ltb_lt; nia).
      destruct (div_finite false true mn md (digits cn - 53) ed Mn Dd)
        as (m & e & -> & _); [unfold e' in *; lia|].
      exists m; exists e. reflexivity.
Qed.




End Scores.

Set Implicit Arguments.

(* ================================================================= *)
(** ** The calls of [exec] *)

Module Exec.

Import TokenRegex Tokens.

Lemma matchAt_None (s : jsstring) (i : nat) :
  matchAt s i = None <-> testAt isLetter s i = false.
Proof.
  unfold testAt, isLetter. destruct (nth_error s i) as [c|] eqn:E.
  - destruct (isLower c) eqn:L.
    + rewrite (matchAt_lower _ _ E L). simpl. split; discriminate.
    + unfold matchAt. rewrite E, L. simpl.
      destruct (isUpper c); split; trivial; discriminate.
  - unfold matchAt. rewrite E. tauto.
Qed.

Lemma scan_spec (s : jsstring) (n : nat) :
  forall i,
    match scan s i n with
    | Some (index, e) =>
        i <= index <= i + n
        /\ matchAt s index = Some e
        /\ forall j, i <= j < index -> matchAt s j = None
    | None => forall j, i <= j <= i + n -> matchAt s j = None
    end.
Proof.
  induction n as [|n IH]; intros i; simpl;
    destruct (matchAt s i) as [e|] eqn:M.
  - repeat split; [lia | lia | exact M | intros; lia].
  - intros j Hj. now replace j with i by lia.
  - repeat split; [lia | lia | exact M | intros; lia].
  - specialize (IH (S i)). destruct (scan s (S i) n) as [[index e]|].
    + destruct IH as (B & Me & Hn). repeat split; [lia | lia | exact Me |].
      intros j Hj. destruct (Nat.eq_dec j i) as [->|N]; trivial.
      apply Hn. lia.
    + intros j Hj. destruct (Nat.eq_dec j i) as [->|N]; trivial.
      apply IH. lia.
Qed.

Lemma matchAt_in_range (s : jsstring) (i e : nat) :
  matchAt s i = Some e -> i < length s.
Proof.
  unfold matchAt. destruct (nth_error s i) eqn:E; [|discriminate].
  intros _. apply nth_error_Some. congruence.
Qed.

Lemma matchAt_out_of_range (s : jsstring) (i : nat) :
  length s <= i -> matchAt s i = None.
Proof.
  intros L. unfold matchAt.
  now replace (nth_error s i) with (@None codeUnit)
    by (symmetry; now apply nth_error_None).
Qed.

(** What a call of [exec] finds. *)
Lemma exec_spec (s : jsstring) (lastIndex : nat) :
  match exec s lastIndex with
  | (Some index, lastIndex') =>
      lastIndex <= index < length s
      /\ testAt isLetter s index = true
      /\ (forall j, lastIndex <= j < index -> testAt isLetter s j = false)
      /\ lastIndex' = index + 1 + run (skipn (index + 1) s)
  | (None, lastIndex') =>
      lastIndex' = 0
      /\ forall j, lastIndex <= j -> testAt isLetter s j = false
  end.
Proof.
  unfold exec. destruct (Nat.ltb_spec (length s) lastIndex) as [L|L].
  - split; trivial. intros j Hj. apply matchAt_None, matchAt_out_of_range. lia.
  - pose proof (scan_spec s (length s - lastIndex) lastIndex) as S.
    destruct (scan s lastIndex (length s - lastIndex)) as [[index e]|].
    + destruct S as (B & M & Hn).
      pose proof (matchAt_in_range _ _ M) as R.
      destruct (matchAt_letter _ _ M) as [Hl He].
      repeat split; try lia; trivial.
      intros j Hj. apply matchAt_None. auto.
    + split; trivial. intros j Hj. apply matchAt_None.
      destruct (Nat.le_gt_cases (length s) j) as [G|G].
      * now apply matchAt_out_of_range.
      * apply S. lia.
Qed.

End Exec.

(* ================================================================= *)
(** ** The positions of the token matcher and the tokens *)

Module Alignment.

Import TokenTermination.

Lemma lastOf_app (prev : option nat) (ps : list nat) (p : nat) :
  lastOf prev (ps ++ [p]) = Some p.
Proof. unfold lastOf. now rewrite rev_app_distr. Qed.

Lemma lastOf_cons (prev : option nat) (x : nat) (ps : list nat) :
  lastOf prev (x :: ps) = lastOf (Some x) ps.
Proof. unfold lastOf. simpl. now destruct (rev ps). Qed.

Lemma Aligned_app (source : jsstring) (ps : list nat) (p : nat) :
  forall prev,
    Aligned source prev ps ->
    (p = 0 \/ TokenStart source p \/ lastOf prev ps = Some (p - 1) /\ 0 < p) ->
    Aligned source prev (ps ++ [p]).
Proof.
  induction ps as [|x ps IH]; intros prev A H.
  - simpl in *. tauto.
  - rewrite lastOf_cons in H. destruct A as [Ax A].
    split; trivial. now apply IH.
Qed.

Lemma tokenStep_Kept (source : jsstring) (st : TokenState)
    (letter : codeUnit) (rest : jsstring) :
  cursor st < length source ->
  Kept source st -> Kept source (tokenStep source st letter rest).
Proof.
  intros L (I & A & C). unfold tokenStep, Kept.
  destruct (eqStr [letter] _); simpl.
  - repeat split; trivial.
    + apply Aligned_app; trivial.
      destruct C as [C|[C|[C|C]]]; auto. lia.
    + right; right; right. rewrite lastOf_app. split; [f_equal|]; lia.
  - destruct (TokenRegex.exec source (lastIndex st)) as [[index|] lastIndex']
      eqn:E; simpl.
    + repeat split; trivial.
      * eapply LastIndex_next; eauto.
      * right; right; left. exists (lastIndex st), lastIndex'. auto.
    + pose proof (Exec.exec_spec source (lastIndex st)) as S.
      rewrite E in S. destruct S as [-> _].
      repeat split; trivial; [constructor | right; left; lia].
Qed.

Lemma tokenLoop_Aligned (source : jsstring) (fuel : nat) :
  forall st r,
    Kept source st -> tokenLoop source fuel st = Some r ->
    Aligned source None (matches r).
Proof.
  induction fuel as [|fuel IH]; intros st r K H;
    rewrite tokenLoop_eq in H;
    destruct (queue st) as [|letter rest] eqn:Q;
    try (injection H as <-; simpl; apply K);
    destruct (Nat.leb_spec (length source) (cursor st)) as [L|L];
    try (injection H as <-; exact I); try discriminate.
  apply IH in H; trivial. now apply tokenStep_Kept.
Qed.

End Alignment.

(* ================================================================= *)
(** ** The ranking does not depend on the order of the candidates *)

Module Order.

Import NumberOrder StringOrder Ranking.

Section Unique.

Variable A : Type.
Variable R : A -> A -> Prop.

(** Two sorted lists with the same elements are the same list, when no
    two different elements are each before the other. *)
Lemma sorted_unique (l1 : list A) :
  forall l2,
    StronglySorted R l1 -> StronglySorted R l2 -> Permutation l1 l2 ->
    (forall a b, In a l1 -> In b l1 -> R a b -> R b a -> a = b) ->
    l1 = l2.
Proof.
  induction l1 as [|a l1 IH]; intros l2 S1 S2 P Anti.
  - apply Permutation_nil in P. now subst.
  - destruct l2 as [|b l2].
    + apply Permutation_sym, Permutation_nil in P. discriminate.
    + apply StronglySorted_inv in S1. destruct S1 as [S1 F1].
      apply StronglySorted_inv in S2. destruct S2 as [S2 F2].
      rewrite Forall_forall in F1, F2.
      assert (E : a = b).
      { assert (Ha : In a (b :: l2))
          by (apply (Permutation_in _ P); now left).
        assert (Hb : In b (a :: l1))
          by (apply (Permutation_in _ (Permutation_sym P)); now left).
        destruct Ha as [Ha|Ha]; [now subst|].
        destruct Hb as [Hb|Hb]; [now subst|].
        apply Anti; simpl; auto. }
      subst b. f_equal. apply IH; trivial.
      * now apply Permutation_cons_inv in P.
      * intros x y Hx Hy. apply Anti; now right.
Qed.

End Unique.

Lemma Permutation_filter (A : Type) (f : A -> bool) (l1 l2 : list A) :
  Permutation l1 l2 -> Permutation (filter f l1) (filter f l2).
Proof.
  induction 1 as [|x l1 l2 _ IH|x y l|l1 l2 l3 _ IH1 _ IH2]; simpl.
  - constructor.
  - destruct (f x); auto.
  - destruct (f x), (f y); auto. apply perm_swap.
  - now transitivity (filter f l2).
Qed.

Section Sources.

Variable query : jsstring.
Variable options : FuzzyMatchOptions.

Lemma SourceBefore_antisym (s t : jsstring) :
  SourceBefore query options s t -> SourceBefore query options t s -> s = t.
Proof.
  unfold SourceBefore. rewrite !RankedBefore_compare. simpl.
  intros (c1 & H1 & N1 & S1) (c2 & H2 & N2 & S2).
  apply SFcompare_swap in H1. rewrite H1 in H2. injection H2 as <-.
  destruct c1; try discriminate.
  specialize (S1 eq_refl). specialize (S2 eq_refl).
  unfold gtStr in S1, S2. rewrite (compareStr_swap s t) in S2.
  apply compareStr_Eq. now destruct (compareStr s t).
Qed.

(** The sources of the results, in their order, are sorted. *)
Lemma sources_sorted (sources : list jsstring) :
  StronglySorted (SourceBefore query options)
    (map rsource (fuzzySearch query sources options)).
Proof.
  assert (S : StronglySorted RankedBefore (fuzzySearch query sources options)).
  { unfold fuzzySearch.
    apply sortBy_sorted with (P := fun r => rscore r <> NaN).
    - exact RankedBefore_trans.
    - intros x y _ _. apply compareResults_before.
    - intros x y. apply compareResults_after.
    - apply Forall_forall. intros r Hr.
      rewrite search_loop, app_nil_l, in_flat_map in Hr.
      destruct Hr as [e [_ Hr]]. apply searchStep_In in Hr.
      destruct Hr as [Hs ->]. simpl. now apply positive_not_NaN. }
  assert (F : Forall (fun r => exists i, r = resultFor query options i (rsource r))
                (fuzzySearch query sources options)).
  { apply Forall_forall. intros r H. apply fuzzySearch_In in H.
    destruct H as (i & s & _ & _ & ->). now exists i. }
  induction S as [|r l S IH Hr]; simpl; constructor.
  - apply IH. now inversion F.
  - inversion F as [|? ? [i Er] Fl]; subst.
    rewrite Forall_forall in Hr, Fl. apply Forall_forall.
    intros t Ht. apply in_map_iff in Ht. destruct Ht as (r' & <- & Hr').
    destruct (Fl _ Hr') as [j Er']. specialize (Hr _ Hr').
    rewrite Er, Er' in Hr. exact Hr.
Qed.

Lemma map_snd_entries (A : Type) (l : list A) : map snd (entries l) = l.
Proof.
  unfold entries. generalize 0.
  induction l as [|x l IH]; intros k; simpl; trivial. now rewrite IH.
Qed.

(** The sources of the results are the candidates with a positive
    score. *)
Lemma sources_kept (sources : list jsstring) :
  Permutation
    (map rsource (fuzzySearch query sources options))
    (filter (fun s => gt (score (fuzzyMatch query s options)) zero) sources).
Proof.
  unfold fuzzySearch.
  rewrite sortBy_perm, search_loop, app_nil_l.
  rewrite <- (map_snd_entries sources) at 2.
  induction (entries sources) as [|[i s] es IH]; simpl; trivial.
  destruct (gt _ _); simpl; auto.
Qed.

Lemma shown_of_source (sources : list jsstring) :
  map shown (fuzzySearch query sources options)
  = map (fun s => (s, score (fuzzyMatch query s options),
                   matches (fuzzyMatch query s options)))
        (map rsource (fuzzySearch query sources options)).
Proof.
  rewrite map_map. apply map_ext_in. intros r H.
  apply fuzzySearch_In in H. now destruct H as (i & s & _ & _ & ->).
Qed.

End Sources.

End Order.

(* ================================================================= *)
(** ** The highlighted source *)

Module Highlight.

Lemma unstyle_yellow (l : codeUnit) (rest : jsstring) :
  l <> 27%N ->
  unstyleFrom false (yellow [l] ++ rest) = l :: unstyleFrom false rest.
Proof.
  intros N. unfold yellow. simpl.
  now replace (N.eqb l 27) with false by (symmetry; now apply N.eqb_neq).
Qed.

Lemma unstyle_plain (l : codeUnit) (rest : jsstring) :
  l <> 27%N ->
  unstyleFrom false ([l] ++ rest) = l :: unstyleFrom false rest.
Proof.
  intros N. simpl.
  now replace (N.eqb l 27) with false by (symmetry; now apply N.eqb_neq).
Qed.

Lemma unstyle_marked (matches : list nat) (source : jsstring) :
  ~ In 27%N source ->
  forall k,
    unstyleFrom false
      (concat (map (fun entry : nat * codeUnit =>
                      let '(i, l) := entry in
                      if includes matches i then yellow [l] else [l])
                   (combine (seq k (length source)) source)))
    = source.
Proof.
  induction source as [|l source IH]; intros N k; simpl; trivial.
  assert (Nl : l <> 27%N) by (intros ->; apply N; now left).
  assert (Ns : ~ In 27%N source) by (intros H; apply N; now right).
  destruct (includes matches k).
  - rewrite (unstyle_yellow _ Nl). f_equal. now apply IH.
  - rewrite (unstyle_plain _ Nl). f_equal. now apply IH.
Qed.

Lemma highlighted_nil (source : jsstring) : highlighted source [] = source.
Proof.
  unfold highlighted, entries. generalize 0.
  induction source as [|l source IH]; intros k; simpl; trivial.
  now rewrite IH.
Qed.

End Highlight.

(* ================================================================= *)
(** ** Further properties of [fuzzyMatchByTokens] *)

(** X1: the loop of the token matcher ends: for every query and source
    it returns within as many iterations as the query has letters and
    the source has units, plus one; more iterations change nothing. *)
Theorem fuzzyMatchByTokens_terminates (query source : jsstring) :
  let bound := length (stripWhitespace (toLowerCase query)) + length source + 1 in
  forall fuel,
    bound <= fuel ->
    tokenLoop source fuel (tokenStart query)
    = Some (fuzzyMatchByTokens query source).
Proof.
  intros bound fuel H.
  apply TokenTermination.tokenLoop_more_fuel with (fuel := tokenFuel query source).
  - apply TokenTermination.fuzzyMatchByTokens_loop.
  - exact H.
Qed.

Lemma fuzzyMatchByTokens_terminates_witness :
  tokenLoop (js "getText") 12 (tokenStart (js "gt"))
  = Some (fuzzyMatchByTokens (js "gt") (js "getText")).
Proof.
  apply (fuzzyMatchByTokens_terminates (js "gt") (js "getText")).
  simpl. lia.
Defined.

(** X2: the token matcher returns all or nothing: the no-match result,
    or one position for each letter of the whitespace-stripped,
    lower-cased query, each an index into the source whose unit,
    lower-cased, is that letter.  This holds for every source. *)
Theorem fuzzyMatchByTokens_all_or_nothing (query source : jsstring) :
  fuzzyMatchByTokens query source = noMatch
  \/ (Forall2 (PositionHolds source)
        (matches (fuzzyMatchByTokens query source))
        (stripWhitespace (toLowerCase query))
      /\ score (fuzzyMatchByTokens query source)
         = fuzzyMatchScore source (matches (fuzzyMatchByTokens query source))).
Proof. apply Matchers.fuzzyMatchByTokens_cases. Qed.

(** X3: a query that is, letter by letter, the lower-cased beginning of
    the source is matched by the token matcher at the positions
    0, 1, ..., n-1. *)
Theorem fuzzyMatchByTokens_prefix (query source : jsstring) :
  let q := stripWhitespace (toLowerCase query) in
  Forall2 (fun c u => toLowerCase [u] = [c]) q (firstn (length q) source) ->
  fuzzyMatchByTokens query source
  = {| score := fuzzyMatchScore source (seq 0 (length q));
       matches := seq 0 (length q) |}.
Proof.
  intros q F.
  pose proof (TokenTermination.fuzzyMatchByTokens_loop query source) as H.
  exact (Matchers.tokenLoop_run source _ (tokenStart query) F H).
Qed.

Lemma fuzzyMatchByTokens_prefix_witness :
  fuzzyMatchByTokens (js "Get t") (js "getText")
  = {| score := fuzzyMatchScore (js "getText") [0; 1; 2; 3];
       matches := [0; 1; 2; 3] |}.
Proof.
  apply (fuzzyMatchByTokens_prefix (js "Get t") (js "getText")).
  vm_compute. repeat constructor.
Defined.

(* ================================================================= *)
(** ** Further properties of the token regular expression *)

(** X4: a call of [regex.exec(source)] finds the first letter at or
    after [lastIndex] and matches it together with all the lower-case
    letters and digits that follow it (the lookahead never takes one
    back), leaving [lastIndex] after them; it finds nothing, and resets
    [lastIndex] to 0, exactly when no letter is left. *)
Theorem exec_finds_first_letter (source : jsstring) (lastIndex : nat) :
  match TokenRegex.exec source lastIndex with
  | (Some index, lastIndex') =>
      lastIndex <= index < length source
      /\ TokenRegex.testAt isLetter source index = true
      /\ (forall j, lastIndex <= j < index ->
                    TokenRegex.testAt isLetter source j = false)
      /\ lastIndex' = index + 1 + TokenRegex.run (skipn (index + 1) source)
  | (None, lastIndex') =>
      lastIndex' = 0
      /\ forall j, lastIndex <= j ->
                   TokenRegex.testAt isLetter source j = false
  end.
Proof. apply Exec.exec_spec. Qed.

(** X5: the token matcher matches at token starts or goes on after a
    match: each position it returns is 0, or the start of a token of the
    source, or the position right after the position before it. *)
Theorem fuzzyMatchByTokens_aligned (query source : jsstring) :
  Aligned source None (matches (fuzzyMatchByTokens query source)).
Proof.
  pose proof (TokenTermination.fuzzyMatchByTokens_loop query source) as H.
  apply Alignment.tokenLoop_Aligned in H; trivial.
  unfold Kept, tokenStart. simpl.
  repeat split; [constructor | now left].
Qed.

(* ================================================================= *)
(** ** Further properties of [fuzzyMatchByWildcard] *)

(** X6: the wildcard matcher returns all or nothing: the no-match
    result, or one position for each letter of the whitespace-stripped,
    lower-cased query, strictly increasing indices into the lower-cased
    source, with the score of these positions; so a query with more
    letters than the lower-cased source has units gets the no-match
    result. *)
Theorem fuzzyMatchByWildcard_all_or_nothing (query source : jsstring) :
  let q := stripWhitespace (toLowerCase query) in
  let r := fuzzyMatchByWildcard query source in
  r = noMatch
  \/ (StronglySorted Nat.lt (matches r)
      /\ Forall (fun p => p < length (toLowerCase source)) (matches r)
      /\ length (matches r) = length q
      /\ length q <= length (toLowerCase source)
      /\ score r = fuzzyMatchScore source (matches r)).
Proof.
  intros q r. unfold r.
  destruct (Matchers.fuzzyMatchByWildcard_cases query source)
    as [[_ ->]|(ms & W & ->)]; [now left | right]. simpl.
  pose proof (Wildcard.wildcardLoop_length _ _ _ _ W) as Len. simpl in Len.
  apply Wildcard.wildcardLoop_greedy in W; [|apply LowerCase.query_fixed].
  pose proof (WildcardBounds.LeftmostGreedy_bounded _ _ _ _ W) as B.
  apply Wildcard.LeftmostGreedy_increasing in W. destruct W as [F Sd].
  pose proof (WildcardBounds.increasing_length F Sd B) as H.
  fold q in Len.
  split; [exact Sd|]. split; [exact B|]. split; [exact Len|].
  split; [lia | reflexivity].
Qed.

(* ================================================================= *)
(** ** Further properties of [fuzzyMatch] *)

(** X7: for every source and options, a query without letters (empty, or
    whitespace only) gets no positions and the score NaN. *)
Theorem fuzzyMatch_no_letters (query source : jsstring)
    (options : FuzzyMatchOptions) :
  stripWhitespace (toLowerCase query) = [] ->
  fuzzyMatch query source options = {| score := NaN; matches := [] |}.
Proof.
  intros E. unfold fuzzyMatch.
  rewrite (Matchers.fuzzyMatchByTokens_no_letters _ source E).
  simpl. now apply Matchers.fuzzyMatchByWildcard_no_letters.
Qed.

Lemma fuzzyMatch_no_letters_witness :
  fuzzyMatch (js "  ") (js "getText") noOptions
  = {| score := NaN; matches := [] |}.
Proof.
  apply (fuzzyMatch_no_letters (js "  ") (js "getText") noOptions).
  vm_compute. reflexivity.
Defined.



(** X9: when the whitespace-stripped, lower-cased query is a subsequence
    of the lower-cased source, [fuzzyMatch] returns one position for
    each of its letters, whatever the options. *)
Theorem fuzzyMatch_subsequence_positions (query source : jsstring)
    (options : FuzzyMatchOptions) :
  Subseq (stripWhitespace (toLowerCase query)) (toLowerCase source) ->
  length (matches (fuzzyMatch query source options))
  = length (stripWhitespace (toLowerCase query)).
Proof.
  intros S. unfold fuzzyMatch.
  destruct (gt (score (fuzzyMatchByTokens query source)) zero) eqn:T; simpl.
  - destruct (Positions.fuzzyMatchByTokens_positions query source) as [E|F].
    + rewrite E in T. discriminate.
    + eapply Forall2_length; eauto.
  - destruct (Matchers.fuzzyMatchByWildcard_cases query source)
      as [[W _]|(ms & W & ->)].
    + apply (Wildcard.wildcardLoop_Subseq _ (LowerCase.query_fixed query) 0)
        in S.
      destruct S as [ps S]. congruence.
    + simpl. now apply Wildcard.wildcardLoop_length in W.
Qed.

Lemma fuzzyMatch_subsequence_positions_witness :
  length (matches (fuzzyMatch (js "g") (js "go") noOptions)) = 1.
Proof.
  apply (fuzzyMatch_subsequence_positions (js "g") (js "go") noOptions).
  vm_compute. apply Subseq_take, Subseq_nil.
Defined.



(* ================================================================= *)
(** ** The sign of [fuzzyMatchScore], and a single position 0 *)

Module FirstLetter.

Lemma negative_not_positive (x : number) :
  lt x zero = true -> gt x zero = false.
Proof.
  unfold lt, gt, SFltb. intros H.
  destruct (SFcompare x zero) as [c|] eqn:E; [|discriminate].
  destruct c; try discriminate.
  apply NumberOrder.SFcompare_swap in E. now rewrite E.
Qed.

Lemma fuzzyMatchScore_first (source : jsstring) :
  (0 < length source)%nat -> (Z.of_nat (length source) < 2 ^ 53)%Z ->
  lt (fuzzyMatchScore source [0]) zero = true.
Proof.
  intros P B.
  destruct (Scores.fuzzyMatchScore_compare source [0]) as (m & e & ->);
    [simpl; lia | reflexivity | exact P | exact B | reflexivity | reflexivity].
Qed.

(** Both matchers on a query of one letter that the source begins
    with. *)
Lemma one_letter (query source : jsstring) (options : FuzzyMatchOptions)
    (c u : codeUnit) (rest : jsstring) :
  stripWhitespace (toLowerCase query) = [c] ->
  source = u :: rest ->
  toLowerCase [u] = [c] ->
  (Z.of_nat (length source) < 2 ^ 53)%Z ->
  fuzzyMatch query source options
  = {| score := fuzzyMatchScore source [0]; matches := [0] |}
  /\ lt (fuzzyMatchScore source [0]) zero = true.
Proof.
  intros Q S U B.
  assert (N : lt (fuzzyMatchScore source [0]) zero = true)
    by (apply fuzzyMatchScore_first; [subst; simpl; lia | exact B]).
  split; [|exact N].
  assert (T : fuzzyMatchByTokens query source
              = {| score := fuzzyMatchScore source [0]; matches := [0] |}).
  { pose proof (TokenTermination.fuzzyMatchByTokens_loop query source) as H.
    apply Matchers.tokenLoop_run in H.
    - simpl in H. now rewrite Q in H.
    - simpl. rewrite Q, S. simpl. constructor; [exact U | constructor]. }
  unfold fuzzyMatch. rewrite T. simpl.
  rewrite (negative_not_positive _ N).
  unfold fuzzyMatchByWildcard. rewrite Q.
  assert (F : fixedUnit c).
  { pose proof (LowerCase.query_fixed query) as F. rewrite Q in F.
    now inversion F. }
  rewrite (Wildcard.wildcardLoop_cons _ _ _ F).
  assert (L : toLowerCase source = c :: toLowerCase rest).
  { subst source. unfold toLowerCase in *. simpl in *.
    rewrite app_nil_r in U. now rewrite U. }
  rewrite L. unfold indexOf. simpl. now rewrite N.eqb_refl.
Qed.

End FirstLetter.

(** X11: the sign of a score is that of S * L - n, for n positions (at
    least one, less than 2^50) that add up to S (less than 2^53) in a
    source of L units (at least one, less than 2^53): the score is
    positive and finite when n < S * L, +Infinity when n = S * L,
    and negative when n > S * L. *)
Theorem fuzzyMatchScore_sign (source : jsstring) (positions : list nat) :
  0 < length positions -> (Z.of_nat (length positions) < 2 ^ 50)%Z ->
  0 < length source -> (Z.of_nat (length source) < 2 ^ 53)%Z ->
  (Z.of_nat (list_sum positions) < 2 ^ 53)%Z ->
  match length positions ?= list_sum positions * length source with
  | Lt => gt (fuzzyMatchScore source positions) zero = true
          /\ lt (fuzzyMatchScore source positions) Infinity = true
  | Eq => fuzzyMatchScore source positions = Infinity
  | Gt => lt (fuzzyMatchScore source positions) zero = true
  end.
Proof.
  intros Pn Bn Pl Bl Bs.
  pose proof (Scores.fuzzyMatchScore_compare source positions Pn Bn Pl Bl Bs)
    as H.
  destruct (length positions ?= list_sum positions * length source).
  - exact H.
  - destruct H as (m & e & -> & _). split; reflexivity.
  - destruct H as (m & e & ->). reflexivity.
Qed.

Lemma fuzzyMatchScore_sign_witness :
  gt (fuzzyMatchScore (js "getText") [0; 3]) zero = true
  /\ lt (fuzzyMatchScore (js "getText") [0; 3]) Infinity = true.
Proof.
  apply (fuzzyMatchScore_sign (js "getText") [0; 3]).
  - simpl. lia.
  - vm_compute. reflexivity.
  - simpl. lia.
  - vm_compute. reflexivity.
  - vm_compute. reflexivity.
Defined.

(** X12: a query of one letter never finds a candidate that begins with
    that letter: for every source (of less than 2^53 units) whose first
    unit, lower-cased, is the one letter of the whitespace-stripped,
    lower-cased query, [fuzzyMatch] returns the position 0 with a
    negative score, whatever the options, and no [fuzzySearch] returns
    that source. *)
Theorem fuzzyMatch_first_letter_dropped (query source : jsstring)
    (options : FuzzyMatchOptions) (c u : codeUnit) (rest : jsstring) :
  stripWhitespace (toLowerCase query) = [c] ->
  source = u :: rest ->
  toLowerCase [u] = [c] ->
  (Z.of_nat (length source) < 2 ^ 53)%Z ->
  matches (fuzzyMatch query source options) = [0]
  /\ lt (score (fuzzyMatch query source options)) zero = true
  /\ forall sources,
       Forall (fun r => rsource r <> source)
              (fuzzySearch query sources options).
Proof.
  intros Q S U B.
  destruct (FirstLetter.one_letter query options Q S U B) as [E N].
  rewrite E. simpl. split; [reflexivity|]. split; [exact N|].
  intros sources. apply Forall_forall. intros r H K.
  apply fuzzySearch_In in H. destruct H as (i & s & _ & P & ->).
  simpl in K. subst s. rewrite E in P. simpl in P.
  rewrite (FirstLetter.negative_not_positive _ N) in P. discriminate.
Qed.

Lemma fuzzyMatch_first_letter_dropped_witness :
  matches (fuzzyMatch (js "G") (js "getText") noOptions) = [0]
  /\ lt (score (fuzzyMatch (js "G") (js "getText") noOptions)) zero = true
  /\ fuzzySearch (js "G") [js "getText"] noOptions = [].
Proof.
  destruct (@fuzzyMatch_first_letter_dropped (js "G") (js "getText") noOptions
              103%N 103%N (js "etText"))
    as (M & S & F); try (vm_compute; reflexivity).
  split; [exact M|]. split; [exact S|].
  vm_compute. reflexivity.
Defined.

(* ================================================================= *)
(** ** Which candidates are found *)

Module Found.







End Found.





(* ================================================================= *)
(** ** Further properties of [fuzzySearch] *)

Module Search.

Lemma search_loop_filter (query : jsstring) (options : FuzzyMatchOptions)
    (es : list (nat * jsstring)) :
  flat_map (searchStep query options []) es
  = map (fun e => resultFor query options (fst e) (snd e))
        (filter (kept query options) es).
Proof.
  induction es as [|[i s] es IH]; simpl; trivial.
  unfold kept at 1. simpl.
  destruct (gt _ _); simpl; now rewrite IH.
Qed.

(** Multiplying by 0 or by NaN gives no positive number. *)
Lemma mul_not_positive (x b : number) :
  b = zero \/ b = NaN -> gt (mul x b) zero = false.
Proof.
  intros [->| ->]; destruct x as [s|s| |s m e]; reflexivity.
Qed.

End Search.

(** X15: [fuzzySearch] never returns a result whose score is 0, negative
    or NaN: the score of every result is positive. *)
Theorem fuzzySearch_scores_positive (query : jsstring)
    (sources : list jsstring) (options : FuzzyMatchOptions) :
  Forall (fun r => gt (rscore r) zero = true)
         (fuzzySearch query sources options).
Proof.
  apply Forall_forall. intros r H. apply fuzzySearch_In in H.
  destruct H as (i & s & _ & P & ->). exact P.
Qed.

(** X16: the results of [fuzzySearch] are, in some order, one result for
    each entry (index and candidate) of the input list whose match has a
    positive score: no such candidate is left out, none is returned
    twice, and nothing else is returned. *)
Theorem fuzzySearch_complete (query : jsstring) (sources : list jsstring)
    (options : FuzzyMatchOptions) :
  Permutation
    (fuzzySearch query sources options)
    (map (fun e => resultFor query options (fst e) (snd e))
         (filter (kept query options) (entries sources))).
Proof.
  unfold fuzzySearch.
  rewrite sortBy_perm, search_loop, app_nil_l.
  now rewrite Search.search_loop_filter.
Qed.

(** X17: a search with a query without letters (empty, or whitespace
    only) returns no result, whatever the candidates and options. *)
Theorem fuzzySearch_no_letters (query : jsstring) (sources : list jsstring)
    (options : FuzzyMatchOptions) :
  stripWhitespace (toLowerCase query) = [] ->
  fuzzySearch query sources options = [].
Proof.
  intros E.
  destruct (fuzzySearch query sources options) as [|r l] eqn:R; trivial.
  assert (H : In r (fuzzySearch query sources options))
    by (rewrite R; now left).
  apply fuzzySearch_In in H. destruct H as (i & s & _ & P & _).
  unfold fuzzyMatch in P.
  rewrite (Matchers.fuzzyMatchByTokens_no_letters _ s E) in P. simpl in P.
  rewrite (Matchers.fuzzyMatchByWildcard_no_letters _ s E) in P.
  discriminate.
Qed.

Lemma fuzzySearch_no_letters_witness :
  fuzzySearch (js " ") [js "getText"; js "go"] noOptions = [].
Proof.
  apply (fuzzySearch_no_letters (js " ") [js "getText"; js "go"] noOptions).
  vm_compute. reflexivity.
Defined.


(** X19: with [tokenScoreBias] 0 or NaN a candidate that the token
    matcher matches with a positive score is reported by [fuzzyMatch]
    with the token positions and a score that is not positive, and no
    [fuzzySearch] returns it. *)
Theorem fuzzyMatch_bias_drops_token_match (query source : jsstring)
    (bias : number) :
  bias = zero \/ bias = NaN ->
  gt (score (fuzzyMatchByTokens query source)) zero = true ->
  let options := {| tokenScoreBias := Some bias |} in
  matches (fuzzyMatch query source options)
  = matches (fuzzyMatchByTokens query source)
  /\ gt (score (fuzzyMatch query source options)) zero = false
  /\ forall sources,
       Forall (fun r => rsource r <> source)
              (fuzzySearch query sources options).
Proof.
  intros B T options.
  assert (E : fuzzyMatch query source options
              = {| score := mul (score (fuzzyMatchByTokens query source)) bias;
                   matches := matches (fuzzyMatchByTokens query source) |}).
  { unfold fuzzyMatch. now rewrite T. }
  rewrite E. simpl. rewrite (Search.mul_not_positive _ B).
  split; [reflexivity|]. split; [reflexivity|].
  intros sources. apply Forall_forall. intros r H K.
  apply fuzzySearch_In in H. destruct H as (i & s & _ & P & ->).
  simpl in K. subst s. rewrite E in P. simpl in P.
  rewrite (Search.mul_not_positive _ B) in P. discriminate.
Qed.

Lemma fuzzyMatch_bias_drops_token_match_witness :
  let options := {| tokenScoreBias := Some zero |} in
  matches (fuzzyMatch (js "gt") (js "getText") options) = [0; 3]
  /\ gt (score (fuzzyMatch (js "gt") (js "getText") options)) zero = false
  /\ fuzzySearch (js "gt") [js "getText"] options = [].
Proof.
  destruct (fuzzyMatch_bias_drops_token_match (js "gt") (js "getText")
              (bias := zero)) as (M & S & F).
  - now left.
  - vm_compute. reflexivity.
  - split; [rewrite M; vm_compute; reflexivity|]. split; [exact S|].
    vm_compute. reflexivity.
Defined.

(** X20: the ranking does not depend on the order of the candidates:
    two candidate lists with the same candidates, in any order, give the
    same sequence of sources, scores and positions; only [sourceIndex]
    differs. *)
Theorem fuzzySearch_order_independent (query : jsstring)
    (sources1 sources2 : list jsstring) (options : FuzzyMatchOptions) :
  Permutation sources1 sources2 ->
  map shown (fuzzySearch query sources1 options)
  = map shown (fuzzySearch query sources2 options).
Proof.
  intros P. rewrite !Order.shown_of_source. f_equal.
  apply Order.sorted_unique with (R := SourceBefore query options).
  - apply Order.sources_sorted.
  - apply Order.sources_sorted.
  - rewrite !Order.sources_kept. now apply Order.Permutation_filter.
  - intros a b _ _. apply Order.SourceBefore_antisym.
Qed.

Lemma fuzzySearch_order_independent_witness :
  map shown (fuzzySearch (js "text") [js "DOM.getText"; js "batchExtract"] noOptions)
  = map shown (fuzzySearch (js "text") [js "batchExtract"; js "DOM.getText"] noOptions).
Proof.
  apply (@fuzzySearch_order_independent (js "text")
           [js "DOM.getText"; js "batchExtract"]
           [js "batchExtract"; js "DOM.getText"] noOptions).
  apply perm_swap.
Defined.

(* ================================================================= *)
(** ** Properties of [debugFuzzyMatch] *)

(** X21: highlighting keeps the source: for every source without the
    escape unit U+001B and every list of positions, the highlighted
    string without its escape sequences is the source. *)
Theorem highlighted_unstyle (source : jsstring) (matches : list nat) :
  ~ In 27%N source ->
  unstyle (highlighted source matches) = source.
Proof.
  intros N. unfold unstyle, highlighted, entries.
  now apply Highlight.unstyle_marked.
Qed.

Lemma highlighted_unstyle_witness :
  unstyle (highlighted (js "getText") [0; 3]) = js "getText".
Proof.
  apply (highlighted_unstyle (js "getText") [0; 3]).
  vm_compute. intros H.
  repeat (destruct H as [H|H]; [discriminate|]). exact H.
Defined.

(** X22: for a query without letters (empty, or whitespace only)
    [debugFuzzyMatch] does not report "no match": its third line is the
    source, without highlights, with the score NaN. *)
Theorem debugFuzzyMatch_no_letters (numberToString : number -> jsstring)
    (query source : jsstring) :
  stripWhitespace (toLowerCase query) = [] ->
  debugFuzzyMatch numberToString query source
  = [js "Query: " ++ cyan query;
     js "Candidate: " ++ cyan source;
     js "Result: " ++ source
       ++ js " (score: " ++ numberToString NaN ++ js ")"].
Proof.
  intros E. unfold debugFuzzyMatch.
  assert (M : fuzzyMatch query source noOptions
              = {| score := NaN; matches := [] |}).
  { unfold fuzzyMatch.
    rewrite (Matchers.fuzzyMatchByTokens_no_letters _ source E). simpl.
    now apply Matchers.fuzzyMatchByWildcard_no_letters. }
  rewrite M. simpl score. simpl matches.
  change (strictEq NaN zero) with false. cbv iota.
  now rewrite Highlight.highlighted_nil.
Qed.

Lemma debugFuzzyMatch_no_letters_witness :
  debugFuzzyMatch (fun _ => js "NaN") (js " ") (js "go")
  = [js "Query: " ++ cyan (js " ");
     js "Candidate: " ++ cyan (js "go");
     js "Result: go (score: NaN)"].
Proof.
  apply (debugFuzzyMatch_no_letters (fun _ => js "NaN") (js " ") (js "go")).
  vm_compute. reflexivity.
Defined.
